(** * CragCrowd API: validation, query construction and storage, verified

    A shallow embedding of the sensor-data service:
    - [src/middleware/validation.ts] ([validateRequest]),
    - [src/routes/sensorData.ts] (the two schemas and the three handlers),
    - [src/routes/health.ts] (the health probe),
    - [src/database/connection.ts] ([connectDatabase], [getDatabase],
      [closeDatabase]),
    - [src/index.ts] (the port, the 404 handler and [startServer]),
    together with the parts of the JavaScript runtime, of Zod, of Express and
    of the MongoDB driver that these files call.

    Layout: JavaScript values and built-ins ([Js]), the Zod combinators the
    schemas are written with ([Zod]), the storage engine ([Mongo]), the
    process state and the effect monad ([Express]), then the routes under
    the names they have in the source, and finally the theorems. *)

From Stdlib Require Import ZArith QArith String Ascii List Lia.
From stdpp Require Import gmap strings list fin_maps sorting pretty.

Set Warnings "-register-all,-clear-no-such-hyp".
Local Open Scope Z_scope.

(* ===================================================================== *)
(** ** JavaScript values and the built-ins the service calls             *)
(* ===================================================================== *)

Module Js.

(** A Number.  Every finite double is a rational, so [Fin] over-approximates
    the finite doubles; the three special values are kept apart. *)
Inductive number :=
| Fin (q : Q)
| PosInf
| NegInf
| NaN.

Definition of_Z (z : Z) : number := Fin (inject_Z z).

(** [Number.isInteger]. *)
Definition isInteger (n : number) : bool :=
  match n with
  | Fin q => Qnum q mod Zpos (Qden q) =? 0
  | _ => false
  end.

(** The relational operators [<] and [<=] on Numbers: any comparison with
    NaN is false. *)
Definition ltb (x y : number) : bool :=
  match x, y with
  | NaN, _ | _, NaN => false
  | Fin a, Fin b => negb (Qle_bool b a)
  | _, NegInf => false
  | NegInf, _ => true
  | PosInf, _ => false
  | Fin _, PosInf => true
  end.

Definition leb (x y : number) : bool :=
  match x, y with
  | NaN, _ | _, NaN => false
  | Fin a, Fin b => Qle_bool a b
  | NegInf, _ => true
  | _, PosInf => true
  | PosInf, _ => false
  | Fin _, NegInf => false
  end.

(** The integer a Number denotes, when it denotes one. *)
Definition to_Z (n : number) : option Z :=
  match n with
  | Fin q => if isInteger n then Some (Qnum q / Zpos (Qden q)) else None
  | _ => None
  end.

(** A value as it arrives in a JSON body or a parsed query string, or as it
    is stored: strings are sequences of code units (the model carries the
    code units below 256), a Date is its time value in milliseconds since
    the epoch, an ObjectId (the driver makes them, no request carries one) is
    its serial number.  [undefined] is the absence of a value, [None] at the places
    that look a property up. *)
Inductive value :=
| VNull
| VBool (b : bool)
| VNum (n : number)
| VStr (s : string)
| VDate (t : Z)
| VObjectId (n : nat)
| VArr (l : list value)
| VObj (m : gmap string value).

(** Property access [v[k]] for the keys the service reads. *)
Definition get (v : value) (k : string) : option value :=
  match v with
  | VObj m => m !! k
  | _ => None
  end.

(** ToBoolean, as used by [if (x)] and [x || y]. *)
Definition truthy (v : option value) : bool :=
  match v with
  | None => false
  | Some VNull => false
  | Some (VBool b) => b
  | Some (VNum (Fin q)) => negb (Qnum q =? 0)
  | Some (VNum NaN) => false
  | Some (VNum _) => true
  | Some (VStr s) => negb (String.eqb s "")
  | Some _ => true
  end.

(** Own enumerable properties, as copied by object spread [{...v}]. *)
Definition spread (v : value) : gmap string value :=
  match v with
  | VObj m => m
  | VArr l => list_to_map (imap (fun i x => (pretty i, x)) l)
  | VStr s =>
      list_to_map (imap (fun i c => (pretty i, VStr (String c EmptyString)))
                        (list_ascii_of_string s))
  | _ => ∅
  end.

(** *** parseInt(string, 10) *)

(** StrWhiteSpaceChar, for the code units the model carries: TAB, LF, VT,
    FF, CR, SP and NBSP. *)
Definition isWhiteSpace (c : ascii) : bool :=
  let n := Z.of_N (N_of_ascii c) in
  ((9 <=? n) && (n <=? 13)) || (n =? 32) || (n =? 160).

Fixpoint trimStart (s : string) : string :=
  match s with
  | String c s' => if isWhiteSpace c then trimStart s' else s
  | EmptyString => s
  end.

Definition digit_of (c : ascii) : option Z :=
  let n := Z.of_N (N_of_ascii c) in
  if (48 <=? n) && (n <=? 57) then Some (n - 48) else None.

(** The value of the longest prefix of decimal digits, [None] when that
    prefix is empty. *)
Fixpoint digits (s : string) (acc : option Z) : option Z :=
  match s with
  | String c s' =>
      match digit_of c with
      | Some d => digits s' (Some (10 * default 0 acc + d))
      | None => acc
      end
  | EmptyString => acc
  end.

(** [parseInt(s, 10)]: skip leading white space, read an optional sign,
    then the longest run of decimal digits; whatever follows is ignored,
    and an empty run gives NaN.  The result is the exact integer: the
    rounding to a double that sets in past 2^53 is monotone and leaves
    every value up to 2^53 alone, so no comparison with a bound below
    2^53 is affected; the sign of a zero is dropped.  A run of digits past
    the range of a double, which [parseInt] reads as [Infinity], is read
    here as its integer: it is past every bound either way. *)
Definition parseInt10 (s : string) : number :=
  let body := trimStart s in
  let '(sign, rest) :=
    match body with
    | String c r =>
        if Ascii.eqb c "-" then (-1, r)
        else if Ascii.eqb c "+" then (1, r)
        else (1, body)
    | EmptyString => (1, body)
    end in
  match digits rest None with
  | Some n => of_Z (sign * n)
  | None => NaN
  end.

(** *** Dates *)

(** Reads exactly [k] decimal digits. *)
Fixpoint read_digits (k : nat) (acc : Z) (s : list ascii)
  : option (Z * list ascii) :=
  match k with
  | O => Some (acc, s)
  | S k' =>
      match s with
      | c :: s' =>
          match digit_of c with
          | Some d => read_digits k' (10 * acc + d) s'
          | None => None
          end
      | [] => None
      end
  end.

Definition read_char (c : ascii) (s : list ascii) : option (list ascii) :=
  match s with
  | c' :: s' => if Ascii.eqb c c' then Some s' else None
  | [] => None
  end.

Definition is_leap (y : Z) : bool :=
  ((y mod 4 =? 0) && negb (y mod 100 =? 0)) || (y mod 400 =? 0).

Definition days_in_month (y m : Z) : Z :=
  if m =? 2 then (if is_leap y then 29 else 28)
  else if (m =? 4) || (m =? 6) || (m =? 9) || (m =? 11) then 30
  else 31.

(** Days from 1970-01-01 to the civil date [y]-[m]-[d]. *)
Definition days_from_civil (y m d : Z) : Z :=
  let y' := if m <=? 2 then y - 1 else y in
  let era := y' / 400 in
  let yoe := y' - era * 400 in
  let doy := (153 * (if 2 <? m then m - 3 else m + 9) + 2) / 5 + d - 1 in
  let doe := yoe * 365 + yoe / 4 - yoe / 100 + doy in
  era * 146097 + doe - 719468.

(** The first three digits of a fraction of a second, as milliseconds. *)
Definition millis_of_fraction (f : list ascii) : Z :=
  let d i := default 0 (f !! i ≫= digit_of) in
  100 * d 0%nat + 10 * d 1%nat + d 2%nat.

Definition all_digits (s : list ascii) : bool :=
  forallb (fun c => bool_decide (is_Some (digit_of c))) s.

(** The date-time format that [z.string().datetime()] admits:
    [YYYY-MM-DDTHH:MM:SS], an optional fraction [.d+], then [Z]; the day
    must exist in the month.  The result is the time value that
    [new Date(s)] has for such a string. *)
Definition parse_datetime (s : string) : option Z :=
  let s0 := list_ascii_of_string s in
  '(y, s1) ← read_digits 4 0 s0;
  s2 ← read_char "-" s1;
  '(m, s3) ← read_digits 2 0 s2;
  s4 ← read_char "-" s3;
  '(d, s5) ← read_digits 2 0 s4;
  s6 ← read_char "T" s5;
  '(h, s7) ← read_digits 2 0 s6;
  s8 ← read_char ":" s7;
  '(mi, s9) ← read_digits 2 0 s8;
  s10 ← read_char ":" s9;
  '(sec, s11) ← read_digits 2 0 s10;
  frac ←
    match s11 with
    | "Z"%char :: [] => Some []
    | "."%char :: s12 =>
        match reverse s12 with
        | "Z"%char :: f =>
            if all_digits f && negb (bool_decide (f = []))
            then Some (reverse f) else None
        | _ => None
        end
    | _ => None
    end;
  if (1 <=? m) && (m <=? 12) && (1 <=? d) && (d <=? days_in_month y m)
     && (h <=? 23) && (mi <=? 59) && (sec <=? 59)
  then Some (days_from_civil y m d * 86400000 + h * 3600000 + mi * 60000
             + sec * 1000 + millis_of_fraction frac)
  else None.

(** The test [z.string().datetime()] performs. *)
Definition isDatetime (s : string) : bool :=
  bool_decide (is_Some (parse_datetime s)).

(** [new Date(s)]: [None] is an Invalid Date.  Strings outside the format
    above, whose parsing the language leaves to the implementation, are
    given no time value; no such string passes [z.string().datetime()], so
    none reaches [new Date] through the routes. *)
Definition Date_parse (s : string) : option Z := parse_datetime s.

(** [n] written with at least [k] decimal digits, [n >= 0]. *)
Fixpoint pad (k : nat) (n : Z) : string :=
  match k with
  | O => if n =? 0 then "" else pretty n
  | S k' =>
      pad k' (n / 10)
      +:+ String (ascii_of_N (Z.to_N (48 + n mod 10))) EmptyString
  end.

(** The civil date of a day number (the inverse of [days_from_civil]). *)
Definition civil_from_days (z0 : Z) : Z * Z * Z :=
  let z := z0 + 719468 in
  let era := z / 146097 in
  let doe := z - era * 146097 in
  let yoe := (doe - doe / 1460 + doe / 36524 - doe / 146096) / 365 in
  let doy := doe - (365 * yoe + yoe / 4 - yoe / 100) in
  let mp := (5 * doy + 2) / 153 in
  let d := doy - (153 * mp + 2) / 5 + 1 in
  let m := if mp <? 10 then mp + 3 else mp - 9 in
  let y := yoe + era * 400 + (if m <=? 2 then 1 else 0) in
  (y, m, d).

(** [Date.prototype.toISOString]. *)
Definition toISOString (t : Z) : string :=
  let day := t / 86400000 in
  let ms := t mod 86400000 in
  let '(y, m, d) := civil_from_days day in
  let year :=
    if (0 <=? y) && (y <=? 9999) then pad 4 y
    else if y <? 0 then "-" +:+ pad 6 (- y) else "+" +:+ pad 6 y in
  year +:+ "-" +:+ pad 2 m +:+ "-" +:+ pad 2 d +:+ "T"
    +:+ pad 2 (ms / 3600000) +:+ ":" +:+ pad 2 (ms / 60000 mod 60) +:+ ":"
    +:+ pad 2 (ms / 1000 mod 60) +:+ "." +:+ pad 3 (ms mod 1000) +:+ "Z".

(** What a [throw] carries: an [Error] object, or any other value. *)
Record Error := { message : string; stack : string }.

Inductive thrown :=
| ThrowError (e : Error)
| ThrowValue (v : value).

End Js.

Import Js.

(* ===================================================================== *)
(** ** Zod: the combinators the two schemas are built from               *)
(* ===================================================================== *)

Module Zod.

Inductive ZodIssueCode :=
| invalid_type
| too_small
| too_big
| invalid_string.

(** One entry of [ZodError.errors].  The further keys of an issue (message,
    expected, received, minimum, ...) are functions of the code and of the
    check that raised it and are not carried. *)
Record ZodIssue := { code : ZodIssueCode; path : list string }.

(** The checks of [z.string()]: [.min(n)] and [.datetime()]. *)
Inductive string_check :=
| check_min_length (n : nat)
| check_datetime.

(** The checks of [z.number()]: [.int()], [.min(v)] (inclusive),
    [.positive()] (a [min] at 0, exclusive) and [.max(v)]. *)
Inductive number_check :=
| check_int
| check_min (v : Z) (inclusive : bool)
| check_max (v : Z) (inclusive : bool).

Inductive schema :=
| ZodString (checks : list string_check)
| ZodNumber (checks : list number_check)
| ZodOptional (inner : schema)
| ZodEffects (inner : schema) (transform : value -> value)
| ZodPipeline (input output : schema).

(** [z.object({...})] with the default policy for unknown keys, "strip". *)
Definition ZodObject := list (string * schema).

(** What [_parse] returns; [None] as the value is [undefined]. *)
Inductive ParseReturn :=
| INVALID
| DIRTY (v : option value)
| OK (v : option value).

Definition string_issue (p : list string) (s : string) (c : string_check)
  : list ZodIssue :=
  match c with
  | check_min_length n =>
      if (String.length s <? n)%nat then [{| code := too_small; path := p |}]
      else []
  | check_datetime =>
      if isDatetime s then [] else [{| code := invalid_string; path := p |}]
  end.

Definition number_issue (p : list string) (n : number) (c : number_check)
  : list ZodIssue :=
  match c with
  | check_int =>
      if isInteger n then [] else [{| code := invalid_type; path := p |}]
  | check_min v inclusive =>
      let tooSmall := if inclusive then ltb n (of_Z v) else leb n (of_Z v) in
      if tooSmall then [{| code := too_small; path := p |}] else []
  | check_max v inclusive =>
      let tooBig := if inclusive then ltb (of_Z v) n else leb (of_Z v) n in
      if tooBig then [{| code := too_big; path := p |}] else []
  end.

Definition with_issues (v : value) (iss : list ZodIssue)
  : ParseReturn * list ZodIssue :=
  match iss with
  | [] => (OK (Some v), [])
  | _ => (DIRTY (Some v), iss)
  end.

(** [schema._parse]: the status with its value, and the issues added to the
    context.  A wrong type aborts at once; the checks of a string or a
    number all run, each adding its issue. *)
Fixpoint _parse (s : schema) (p : list string) (data : option value)
  : ParseReturn * list ZodIssue :=
  match s with
  | ZodString checks =>
      match data with
      | Some (VStr x) =>
          with_issues (VStr x) (flat_map (string_issue p x) checks)
      | _ => (INVALID, [{| code := invalid_type; path := p |}])
      end
  | ZodNumber checks =>
      match data with
      | Some (VNum NaN) => (INVALID, [{| code := invalid_type; path := p |}])
      | Some (VNum n) =>
          with_issues (VNum n) (flat_map (number_issue p n) checks)
      | _ => (INVALID, [{| code := invalid_type; path := p |}])
      end
  | ZodOptional inner =>
      match data with
      | None => (OK None, [])
      | Some _ => _parse inner p data
      end
  | ZodEffects inner transform =>
      match _parse inner p data with
      | (OK v, iss) => (OK (transform <$> v), iss)
      | base => base
      end
  | ZodPipeline input output =>
      match _parse input p data with
      | (INVALID, iss) => (INVALID, iss)
      | (DIRTY v, iss) => (DIRTY v, iss)
      | (OK v, iss) =>
          let '(r, iss') := _parse output p v in (r, iss ++ iss')
      end
  end.

(** The pairs [ZodObject._parse] builds, one per key of the shape, in the
    order of the shape: the key of the input is read whether present or
    not, and keys outside the shape are never looked at. *)
Definition object_pairs (shape : ZodObject) (m : gmap string value)
  : list (string * (ParseReturn * list ZodIssue)) :=
  (fun '(k, s) => (k, _parse s [k] (m !! k))) <$> shape.

(** [ParseStatus.mergeObjectSync]: [None] once a pair is aborted, else the
    object of the defined values. *)
Fixpoint mergeObjectSync (pairs : list (string * (ParseReturn * list ZodIssue)))
  : option (gmap string value) :=
  match pairs with
  | [] => Some ∅
  | (k, (r, _)) :: rest =>
      match r with
      | INVALID => None
      | DIRTY v | OK v =>
          finalObject ← mergeObjectSync rest;
          Some (match v with
                | Some x => <[k := x]> finalObject
                | None => finalObject
                end)
      end
  end.

(** [schema.parse(data)] for an object schema: the validated object, or the
    issues a [ZodError] is thrown with.  It succeeds exactly when no issue was
    raised. *)
Definition parse (shape : ZodObject) (data : value)
  : gmap string value + list ZodIssue :=
  match data with
  | VObj m =>
      let pairs := object_pairs shape m in
      let issues := flat_map (fun kv => snd (snd kv)) pairs in
      match issues, mergeObjectSync pairs with
      | [], Some finalObject => inl finalObject
      | _, _ => inr issues
      end
  | _ => inr [{| code := invalid_type; path := [] |}]
  end.

End Zod.

Import Zod.

(* ===================================================================== *)
(** ** The storage engine: one collection, find and aggregate            *)
(* ===================================================================== *)

Module Mongo.

(** A stored document: the identifier the driver assigns on insertion, and
    the fields of the object handed to [insertOne]. *)
Record Document := { _id : nat; fields : gmap string value }.

(** The collection in natural order, which for a collection that is only
    ever appended to is the order of insertion. *)
Abbreviation Collection := (list Document).

Definition insertOne (id : nat) (doc : gmap string value) (c : Collection)
  : Collection :=
  c ++ [{| _id := id; fields := doc |}].

(** The operand of a condition on [server_timestamp]: [{$gte?, $lte?}],
    the bounds being BSON dates. *)
Record Range := { op_gte : option Z; op_lte : option Z }.

(** The filter object the query handler builds:
    [{wall_id?, server_timestamp?}]. *)
Record Filter := {
  f_wall_id : option string;
  f_server_timestamp : option Range
}.

(** The BSON date written for a JavaScript Date: the serializer writes an
    Invalid Date as the time value 0. *)
Definition bson_date (d : option Z) : Z := default 0 d.

(** The time a document carries under [server_timestamp], when that field
    is a date. *)
Definition timestamp_of (d : Document) : option Z :=
  match fields d !! "server_timestamp" with
  | Some (VDate t) => Some t
  | _ => None
  end.

(** The string a document carries under [wall_id]. *)
Definition wall_of (d : Document) : option string :=
  match fields d !! "wall_id" with
  | Some (VStr s) => Some s
  | _ => None
  end.

(** A condition [{$gte?, $lte?}] against dates only admits fields that are
    dates; the operand [{}], with no operator in it, is an equality with
    the empty document. *)
Definition in_range (r : Range) (d : Document) : bool :=
  match op_gte r, op_lte r with
  | None, None =>
      match fields d !! "server_timestamp" with
      | Some (VObj m) => bool_decide (size m = 0%nat)
      | _ => false
      end
  | lo, hi =>
      match timestamp_of d with
      | Some t =>
          match lo with Some l => l <=? t | None => true end
          && match hi with Some h => t <=? h | None => true end
      | None => false
      end
  end.

(** Whether a document satisfies the filter: every condition present must
    hold; the empty filter admits every document. *)
Definition matches (f : Filter) (d : Document) : bool :=
  match f_wall_id f with
  | Some w => bool_decide (wall_of d = Some w)
  | None => true
  end
  && match f_server_timestamp f with
     | Some r => in_range r d
     | None => true
     end.

(** Descending order on an optional time; a document without a date sorts
    after every document that has one. *)
Definition time_ge (a b : option Z) : Prop :=
  match a, b with
  | _, None => True
  | None, Some _ => False
  | Some x, Some y => y <= x
  end.

#[global] Instance time_ge_dec a b : Decision (time_ge a b).
Proof. destruct a, b; simpl; apply _. Defined.

Definition newer_first (d1 d2 : Document) : Prop :=
  time_ge (timestamp_of d1) (timestamp_of d2).

#[global] Instance newer_first_dec d1 d2 : Decision (newer_first d1 d2).
Proof. unfold newer_first. apply _. Defined.

(** [cursor.limit(n)]: 0 is no limit, a negative [n] asks for [-n]
    documents. *)
Definition cursor_limit (n : Z) (l : list Document) : list Document :=
  if n =? 0 then l else take (Z.to_nat (Z.abs n)) l.

(** [find(f).sort({server_timestamp: -1}).limit(n).toArray()]. *)
Definition find (f : Filter) (n : Z) (c : Collection) : list Document :=
  cursor_limit n (merge_sort newer_first (filter (fun d => matches f d) c)).

(** A group of the [$group] stage with its two accumulators. *)
Record Group := {
  g_id : option string;
  g_latest_reading : option Z;
  g_device_count : option value
}.

(** The [$max] accumulator: a missing value leaves the maximum alone. *)
Definition acc_max (a b : option Z) : option Z :=
  match a, b with
  | Some x, Some y => Some (Z.max x y)
  | Some x, None => Some x
  | None, y => y
  end.

(** One document enters the group of its key: [$max] folds its time in,
    [$last] keeps its [device_count]; a new key opens a new group. *)
Fixpoint accumulate (d : Document) (gs : list Group) : list Group :=
  match gs with
  | [] =>
      [{| g_id := wall_of d;
          g_latest_reading := acc_max None (timestamp_of d);
          g_device_count := fields d !! "device_count" |}]
  | g :: gs' =>
      if decide (g_id g = wall_of d)
      then {| g_id := g_id g;
              g_latest_reading := acc_max (g_latest_reading g) (timestamp_of d);
              g_device_count := fields d !! "device_count" |} :: gs'
      else g :: accumulate d gs'
  end.

(** [{$group: {_id: '$wall_id', latest_reading: {$max: '$server_timestamp'},
    device_count: {$last: '$device_count'}}}] over the collection in natural
    order. *)
Definition group_stage (c : Collection) : list Group :=
  foldl (fun gs d => accumulate d gs) [] c.

(** A row of the summary, after [$project]. *)
Record Wall := {
  wall_id : option string;
  latest_reading : option Z;
  device_count : option value
}.

Definition project_stage (g : Group) : Wall :=
  {| wall_id := g_id g;
     latest_reading := g_latest_reading g;
     device_count := g_device_count g |}.

Definition latest_first (w1 w2 : Wall) : Prop :=
  time_ge (latest_reading w1) (latest_reading w2).

#[global] Instance latest_first_dec w1 w2 : Decision (latest_first w1 w2).
Proof. unfold latest_first. apply _. Defined.

(** The pipeline of the summary: [$group], [$project],
    [{$sort: {latest_reading: -1}}]. *)
Definition aggregate_walls (c : Collection) : list Wall :=
  merge_sort latest_first (project_stage <$> group_stage c).

End Mongo.

Import Mongo.

(* ===================================================================== *)
(** ** The process: requests, responses, state and effects               *)
(* ===================================================================== *)

Module Express.

Record Request := { body : value; query : value; params : value }.

(** What [res.status(c).json(v)] sends; [res.json(v)] alone sends 200. *)
Record Response := { statusCode : Z; json : value }.

Inductive Target := target_body | target_query | target_params.

(** [req[target]]. *)
Definition req_get (req : Request) (target : Target) : value :=
  match target with
  | target_body => body req
  | target_query => query req
  | target_params => params req
  end.

(** [req[target] = v]. *)
Definition req_set (req : Request) (target : Target) (v : value) : Request :=
  match target with
  | target_body => {| body := v; query := query req; params := params req |}
  | target_query => {| body := body req; query := v; params := params req |}
  | target_params => {| body := body req; query := query req; params := v |}
  end.

(** Everything a handler can observe or change outside its request:
    - the system clock, as the sequence of values its successive readings
      return, and how many readings were taken;
    - [process.uptime()];
    - the module variable [db] of [connection.ts], set once
      [connectDatabase] has run;
    - the collection [sensor_readings] on the server;
    - the outcome of each command sent to the server, in order: [None] for
      success, or what the driver throws; and how many were sent;
    - the serial number of the next ObjectId. *)
Record World := {
  clock : nat -> Z;
  clock_reads : nat;
  uptime : number;
  db : bool;
  sensor_readings : Collection;
  server : nat -> option thrown;
  commands : nat;
  next_id : nat
}.

Definition tick (w : World) : World :=
  {| clock := clock w; clock_reads := S (clock_reads w); uptime := uptime w;
     db := db w; sensor_readings := sensor_readings w; server := server w;
     commands := commands w; next_id := next_id w |}.

Definition sent (w : World) : World :=
  {| clock := clock w; clock_reads := clock_reads w; uptime := uptime w;
     db := db w; sensor_readings := sensor_readings w; server := server w;
     commands := S (commands w); next_id := next_id w |}.

Definition stored (c : Collection) (w : World) : World :=
  {| clock := clock w; clock_reads := clock_reads w; uptime := uptime w;
     db := db w; sensor_readings := c; server := server w;
     commands := commands w; next_id := S (next_id w) |}.

(** Computations of a handler: they read and change the world, and end in a
    value or in a [throw]. *)
Definition M (A : Type) : Type := World -> (A + thrown) * World.

#[global] Instance M_ret : MRet M := fun A a w => (inl a, w).

#[global] Instance M_bind : MBind M := fun A B k m w =>
  match m w with
  | (inl a, w') => k a w'
  | (inr e, w') => (inr e, w')
  end.

Definition throw {A} (e : thrown) : M A := fun w => (inr e, w).

(** [try { m } catch (error) { h }]. *)
Definition try_catch {A} (m : M A) (h : thrown -> M A) : M A := fun w =>
  match m w with
  | (inr e, w') => h e w'
  | r => r
  end.

(** [new Date()]: one reading of the system clock. *)
Definition new_Date : M Z := fun w => (inl (clock w (clock_reads w)), tick w).

Definition process_uptime : M number := fun w => (inl (uptime w), w).

(** [getDatabase] of [connection.ts]. *)
Definition getDatabase : M unit := fun w =>
  if db w then (inl tt, w)
  else throw (ThrowError
                {| message := "Database not initialized. Call connectDatabase() first.";
                   stack := "Error: Database not initialized. Call connectDatabase() first. at getDatabase" |})
             w.

(** One round trip to the server: it fails with what the driver throws, and
    then nothing was written, or it runs against the collection. *)
Definition command {A} (run : World -> A * World) : M A := fun w =>
  match server w (commands w) with
  | Some e => (inr e, sent w)
  | None => let '(a, w') := run (sent w) in (inl a, w')
  end.

(** [db.collection('sensor_readings').insertOne(doc)], returning
    [insertedId]. *)
Definition db_insertOne (doc : gmap string value) : M nat :=
  command (fun w =>
    (next_id w, stored (insertOne (next_id w) doc (sensor_readings w)) w)).

(** [db.collection('sensor_readings').find(f).sort(..).limit(n).toArray()]. *)
Definition db_find (f : Filter) (n : Z) : M (list Document) :=
  command (fun w => (find f n (sensor_readings w), w)).

(** [db.collection('sensor_readings').aggregate([...]).toArray()]. *)
Definition db_aggregate_walls : M (list Wall) :=
  command (fun w => (aggregate_walls (sensor_readings w), w)).

(** [db.admin().ping()]. *)
Definition db_ping : M unit := command (fun w => (tt, w)).

(** A route: the middleware in front either answers, or hands the request
    on to the handler. *)
Definition route (mw : Request -> Response + Request)
                 (handler : Request -> M Response) (req : Request)
  : M Response :=
  match mw req with
  | inl res => mret res
  | inr req' => handler req'
  end.

End Express.

Import Express.

(* ===================================================================== *)
(** ** middleware/validation.ts                                          *)
(* ===================================================================== *)

(** An object literal. *)
Definition object (kvs : list (string * value)) : value :=
  VObj (list_to_map kvs).

Definition code_name (c : ZodIssueCode) : string :=
  match c with
  | invalid_type => "invalid_type"
  | too_small => "too_small"
  | too_big => "too_big"
  | invalid_string => "invalid_string"
  end.

Definition issue_json (i : ZodIssue) : value :=
  object [("code", VStr (code_name (code i)));
          ("path", VArr (VStr <$> path i))].

(** [validateRequest(schema, target)]: on success the validated data takes
    the place of [req[target]] and the next handler runs; a [ZodError] is
    answered with 400 and the list of issues.  [schema.parse] throws nothing
    but a [ZodError], so the branch for any other error has no counterpart
    here; the two log lines are not part of the response.  The schema is an
    object schema in Zod's default mode, as both schemas of the service are:
    a schema of another kind ([passthrough], [strict], or one that is not an
    object) has no counterpart here. *)
Definition validateRequest (schema : ZodObject) (target : Target)
                           (req : Request) : Response + Request :=
  let dataToValidate := req_get req target in
  match parse schema dataToValidate with
  | inl validatedData => inr (req_set req target (VObj validatedData))
  | inr errors =>
      inl {| statusCode := 400;
             json := object [("success", VBool false);
                             ("error", VStr "Validation failed");
                             ("details", VArr (issue_json <$> errors))] |}
  end.

(* ===================================================================== *)
(** ** routes/sensorData.ts                                              *)
(* ===================================================================== *)

Definition sensorDataSchema : ZodObject :=
  [ ("wall_id", ZodString [check_min_length 1]);
    ("device_count", ZodNumber [check_int; check_min 0 true]);
    ("timestamp", ZodNumber [check_int; check_min 0 false]);
    ("gateway_id", ZodOptional (ZodString []));
    ("rssi", ZodOptional (ZodNumber []));
    ("snr", ZodOptional (ZodNumber []));
    ("received_at", ZodOptional (ZodNumber [check_int; check_min 0 false])) ].

(** [val => parseInt(val, 10)]; the [z.string()] in front only lets strings
    through. *)
Definition parseInt_transform (val : value) : value :=
  match val with
  | VStr s => VNum (parseInt10 s)
  | _ => VNum NaN
  end.

Definition querySensorDataSchema : ZodObject :=
  [ ("wall_id", ZodOptional (ZodString []));
    ("start_time", ZodOptional (ZodString [check_datetime]));
    ("end_time", ZodOptional (ZodString [check_datetime]));
    ("limit", ZodOptional
                (ZodPipeline (ZodEffects (ZodString []) parseInt_transform)
                             (ZodNumber [check_int; check_min 1 true;
                                         check_max 1000 true]))) ].

(** The handler of [POST /]: stamp, insert, answer 201; anything thrown on
    the way is answered with 500 and a fixed message. *)
Definition post_handler (req : Request) : M Response :=
  try_catch
    (let sensorData := body req in
     _ ← getDatabase;
     server_timestamp ← new_Date;
     created_at ← new_Date;
     let dataWithServerTime :=
       <["created_at" := VDate created_at]>
         (<["server_timestamp" := VDate server_timestamp]> (spread sensorData)) in
     insertedId ← db_insertOne dataWithServerTime;
     mret {| statusCode := 201;
             json := object [("success", VBool true);
                             ("id", VObjectId insertedId);
                             ("message", VStr "Sensor data received successfully")] |})
    (fun error =>
       mret {| statusCode := 500;
               json := object [("success", VBool false);
                               ("error", VStr "Failed to save sensor data")] |}).

Definition sensorDataRouter_post : Request -> M Response :=
  route (validateRequest sensorDataSchema target_body) post_handler.

(** The validated query with the types the schema gives its fields:
    [{wall_id?: string, start_time?: string, end_time?: string,
      limit?: number}], the number being an integer.  The handler takes its
    query [as any]; what validation hands it always has these types (see
    [validated_limit] and [validated_times]). *)
Record Query := {
  q_wall_id : option string;
  q_start_time : option string;
  q_end_time : option string;
  q_limit : option Z
}.

Definition as_string (v : option value) : option string :=
  match v with Some (VStr s) => Some s | _ => None end.

Definition as_integer (v : option value) : option Z :=
  match v with Some (VNum n) => to_Z n | _ => None end.

(** [req.query as any], destructured. *)
Definition as_Query (v : value) : Query :=
  {| q_wall_id := as_string (get v "wall_id");
     q_start_time := as_string (get v "start_time");
     q_end_time := as_string (get v "end_time");
     q_limit := as_integer (get v "limit") |}.

Definition truthy_string (s : option string) : bool := truthy (VStr <$> s).

(** [new Date(s)] as it is written into the filter. *)
Definition new_Date_of (s : string) : Z := bson_date (Date_parse s).

(** The part of the handler under "Build query". *)
Definition build_query (q : Query) : Filter :=
  {| f_wall_id := if truthy_string (q_wall_id q) then q_wall_id q else None;
     f_server_timestamp :=
       if truthy_string (q_start_time q) || truthy_string (q_end_time q)
       then Some {| op_gte := if truthy_string (q_start_time q)
                              then new_Date_of <$> q_start_time q else None;
                    op_lte := if truthy_string (q_end_time q)
                              then new_Date_of <$> q_end_time q else None |}
       else None |}.

(** [limit = 100] in the destructuring: the default for an absent limit. *)
Definition effective_limit (q : Query) : Z := default 100 (q_limit q).

Definition document_json (d : Document) : value :=
  VObj (<["_id" := VObjectId (_id d)]> (fields d)).

(** The handler of [GET /], on the validated query. *)
Definition get_handler_on (q : Query) : M Response :=
  try_catch
    (let limit := effective_limit q in
     _ ← getDatabase;
     let query := build_query q in
     data ← db_find query limit;
     mret {| statusCode := 200;
             json := object [("success", VBool true);
                             ("count", VNum (of_Z (Z.of_nat (length data))));
                             ("data", VArr (document_json <$> data))] |})
    (fun error =>
       mret {| statusCode := 500;
               json := object [("success", VBool false);
                               ("error", VStr "Failed to query sensor data")] |}).

Definition get_handler (req : Request) : M Response :=
  get_handler_on (as_Query (query req)).

Definition sensorDataRouter_get : Request -> M Response :=
  route (validateRequest querySensorDataSchema target_query) get_handler.

Definition or_null (v : option value) : value := default VNull v.

Definition wall_json (w : Wall) : value :=
  object [("wall_id", or_null (VStr <$> wall_id w));
          ("latest_reading", or_null (VDate <$> latest_reading w));
          ("device_count", or_null (device_count w))].

(** The handler of [GET /walls]; the route has no middleware. *)
Definition sensorDataRouter_get_walls (req : Request) : M Response :=
  try_catch
    (_ ← getDatabase;
     walls ← db_aggregate_walls;
     mret {| statusCode := 200;
             json := object [("success", VBool true);
                             ("count", VNum (of_Z (Z.of_nat (length walls))));
                             ("walls", VArr (wall_json <$> walls))] |})
    (fun error =>
       mret {| statusCode := 500;
               json := object [("success", VBool false);
                               ("error", VStr "Failed to get walls data")] |}).

(* ===================================================================== *)
(** ** routes/health.ts                                                  *)
(* ===================================================================== *)

(** [error instanceof Error ? error.message : 'Unknown error']. *)
Definition error_text (error : thrown) : string :=
  match error with
  | ThrowError e => message e
  | ThrowValue _ => "Unknown error"
  end.

Definition healthRouter_get (req : Request) : M Response :=
  try_catch
    (_ ← getDatabase;
     _ ← db_ping;
     now ← new_Date;
     up ← process_uptime;
     mret {| statusCode := 200;
             json := object [("status", VStr "healthy");
                             ("timestamp", VStr (toISOString now));
                             ("database", VStr "connected");
                             ("uptime", VNum up)] |})
    (fun error =>
       now ← new_Date;
       mret {| statusCode := 503;
               json := object [("status", VStr "unhealthy");
                               ("timestamp", VStr (toISOString now));
                               ("database", VStr "disconnected");
                               ("error", VStr (error_text error))] |}).

(* ===================================================================== *)
(** ** database/connection.ts                                            *)
(* ===================================================================== *)

Module Connection.

(** A client as the module holds it: the connection string it was made
    with, and whether it is connected. *)
Record MongoClient := { url : string; connected : bool }.

(** A database handle: its name, and the connection string of the client it
    was obtained from. *)
Record Db := { databaseName : string; via : string }.

(** What the module relies on the driver for: whether making a client for a
    connection string, connecting it, naming a database on it, or closing it
    throws, and what ([None]: nothing is thrown). *)
Record Driver := {
  new_MongoClient : string -> option thrown;
  client_connect : string -> option thrown;
  client_db : string -> option thrown;
  client_close : string -> option thrown
}.

(** The two module variables, [undefined] until assigned. *)
Record State := { client : option MongoClient; db : option Db }.

(** The module as loaded. *)
Definition initial : State := {| client := None; db := None |}.

(** [process.env.K || d]: a variable that is unset or set to the empty
    string gives way to the default. *)
Definition env_or (env : gmap string string) (k d : string) : string :=
  match env !! k with
  | Some s => if String.eqb s "" then d else s
  | None => d
  end.

(** [connectDatabase]: the client is assigned before it connects, the
    handle only after; whatever is thrown on the way is logged and thrown
    again. *)
Definition connectDatabase (drv : Driver) (env : gmap string string)
                           (st : State) : (unit + thrown) * State :=
  let connectionString := env_or env "MONGODB_URI" "mongodb://localhost:27017" in
  let databaseName := env_or env "DB_NAME" "cragcrowd" in
  match new_MongoClient drv connectionString with
  | Some error => (inr error, st)
  | None =>
      let st1 := {| client := Some {| url := connectionString; connected := false |};
                    db := db st |} in
      match client_connect drv connectionString with
      | Some error => (inr error, st1)
      | None =>
          let c := {| url := connectionString; connected := true |} in
          let st2 := {| client := Some c; db := db st |} in
          match client_db drv databaseName with
          | Some error => (inr error, st2)
          | None =>
              (inl tt,
               {| client := Some c;
                  db := Some {| databaseName := databaseName;
                                via := connectionString |} |})
          end
      end
  end.

(** [getDatabase]. *)
Definition getDatabase (st : State) : Db + thrown :=
  match db st with
  | Some d => inl d
  | None =>
      inr (ThrowError
             {| message := "Database not initialized. Call connectDatabase() first.";
                stack := "Error: Database not initialized. Call connectDatabase() first. at getDatabase" |})
  end.

(** [closeDatabase]: closes the client if there is one; the two variables
    keep what they hold. *)
Definition closeDatabase (drv : Driver) (st : State) : (unit + thrown) * State :=
  match client st with
  | Some c =>
      match client_close drv (url c) with
      | Some error => (inr error, st)
      | None =>
          (inl tt,
           {| client := Some {| url := url c; connected := false |};
              db := db st |})
      end
  | None => (inl tt, st)
  end.

End Connection.

(* ===================================================================== *)
(** ** index.ts: the 404 handler and startServer                         *)
(* ===================================================================== *)

(** How [startServer] leaves the process: listening on a port, or exited
    with a code. *)
Inductive Started :=
| Listening (port : value)
| Exited (code : Z).

(** [process.env.PORT || 3000]. *)
Definition PORT (env : gmap string string) : value :=
  match env !! "PORT" with
  | Some s => if String.eqb s "" then VNum (of_Z 3000) else VStr s
  | None => VNum (of_Z 3000)
  end.


(** [startServer]: connect, then listen; anything thrown by either ends the
    process with code 1.  [listen] says what [app.listen(PORT)] throws for a
    port. *)
Definition startServer (drv : Connection.Driver) (listen : value -> option thrown)
                       (env : gmap string string) (st : Connection.State)
  : Started * Connection.State :=
  match Connection.connectDatabase drv env st with
  | (inl _, st') =>
      match listen (PORT env) with
      | None => (Listening (PORT env), st')
      | Some error => (Exited 1, st')
      end
  | (inr error, st') => (Exited 1, st')
  end.

(* ===================================================================== *)
(** ** Vocabulary of the statements                                      *)
(* ===================================================================== *)

(** *** The responses the routes send, by name *)

(** The answer of [validateRequest] to a [ZodError]. *)
Definition validation_failed (errors : list ZodIssue) : Response :=
  {| statusCode := 400;
     json := object [("success", VBool false);
                     ("error", VStr "Validation failed");
                     ("details", VArr (issue_json <$> errors))] |}.

(** The answer of a [catch] block of [sensorData.ts]. *)
Definition failure (msg : string) : Response :=
  {| statusCode := 500;
     json := object [("success", VBool false); ("error", VStr msg)] |}.

(** The answer of [POST /] to an insertion that went through. *)
Definition created (insertedId : nat) : Response :=
  {| statusCode := 201;
     json := object [("success", VBool true);
                     ("id", VObjectId insertedId);
                     ("message", VStr "Sensor data received successfully")] |}.

(** The document [POST /] hands to [insertOne]. *)
Definition stamped (data : gmap string value) (w : World) : gmap string value :=
  <["created_at" := VDate (clock w (S (clock_reads w)))]>
    (<["server_timestamp" := VDate (clock w (clock_reads w))]> data).

(** The answer of [GET /] to a read that went through. *)
Definition found (data : list Document) : Response :=
  {| statusCode := 200;
     json := object [("success", VBool true);
                     ("count", VNum (of_Z (Z.of_nat (length data))));
                     ("data", VArr (document_json <$> data))] |}.

(** The answer of [GET /walls] to an aggregation that went through. *)
Definition summary (walls : list Wall) : Response :=
  {| statusCode := 200;
     json := object [("success", VBool true);
                     ("count", VNum (of_Z (Z.of_nat (length walls))));
                     ("walls", VArr (wall_json <$> walls))] |}.

(** The answer of the health probe when the ping went through. *)
Definition healthy (now : Z) (up : number) : Response :=
  {| statusCode := 200;
     json := object [("status", VStr "healthy");
                     ("timestamp", VStr (toISOString now));
                     ("database", VStr "connected");
                     ("uptime", VNum up)] |}.

(** The answer of the [catch] block of [health.ts]. *)
Definition unhealthy (now : Z) (text : string) : Response :=
  {| statusCode := 503;
     json := object [("status", VStr "unhealthy");
                     ("timestamp", VStr (toISOString now));
                     ("database", VStr "disconnected");
                     ("error", VStr text)] |}.

(** The message of the error [getDatabase] throws. *)
Definition not_initialized : string :=
  "Database not initialized. Call connectDatabase() first.".

(** The schema of the [limit] parameter. *)
Definition limit_schema : schema :=
  ZodOptional
    (ZodPipeline (ZodEffects (ZodString []) parseInt_transform)
                 (ZodNumber [check_int; check_min 1 true; check_max 1000 true])).

(** *** Notions the statements are written with *)

(** Schemas without a transform hand the input on as it came. *)
Fixpoint plain (s : schema) : bool :=
  match s with
  | ZodString _ | ZodNumber _ => true
  | ZodOptional inner => plain inner
  | ZodEffects _ _ => false
  | ZodPipeline a b => plain a && plain b
  end.

(** The value a pair of [ZodObject._parse] contributes to the validated
    object. *)
Definition pair_value (kv : string * (ParseReturn * list ZodIssue))
  : option value :=
  match kv.2.1 with OK v | DIRTY v => v | INVALID => None end.

(** The decimal digits. *)
Definition is_digit (c : ascii) : bool := bool_decide (is_Some (digit_of c)).

(** Every code unit of [s] satisfies [P]. *)
Fixpoint all_chars (P : ascii -> bool) (s : string) : bool :=
  match s with
  | String c s' => P c && all_chars P s'
  | EmptyString => true
  end.

(** [s] is not empty and its first code unit satisfies [P]. *)
Definition starts_with (P : ascii -> bool) (s : string) : bool :=
  match s with
  | String c _ => P c
  | EmptyString => false
  end.

(** The number a string of decimal digits denotes above [acc]. *)
Fixpoint decimal_from (acc : Z) (ds : string) : Z :=
  match ds with
  | String c ds' => decimal_from (10 * acc + default 0 (digit_of c)) ds'
  | EmptyString => acc
  end.

(** The number a string of decimal digits denotes. *)
Definition decimal (ds : string) : Z := decimal_from 0 ds.

(** [s] reads as the integer [n] from its start: white space, an optional
    sign, a run of decimal digits that is not empty and is not followed by a
    further digit, and then anything. *)
Definition numeric_prefix (s : string) (n : Z) : Prop :=
  exists ws sign ds rest,
    s = ws +:+ sign +:+ ds +:+ rest /\
    all_chars isWhiteSpace ws = true /\
    (sign = "" /\ n = decimal ds \/ sign = "+" /\ n = decimal ds \/
     sign = "-" /\ n = - decimal ds) /\
    ds <> "" /\ all_chars is_digit ds = true /\
    starts_with is_digit rest = false.

(** A decimal integer and nothing else: an optional sign, then digits. *)
Definition integer_literal (s : string) : bool :=
  match s with
  | String c r =>
      if Ascii.eqb c "-" || Ascii.eqb c "+"
      then all_chars is_digit r && negb (String.eqb r "")
      else all_chars is_digit s
  | EmptyString => false
  end.

(** A parameter as the handler's [if (x)] sees it: present and not the empty
    string. *)
Definition present (o : option string) : option string :=
  if truthy_string o then o else None.

(** The readings of one wall, in the order of insertion. *)
Definition readings_of (k : option string) (c : Collection) : list Document :=
  filter (fun d => wall_of d = k) c.

(** The latest of a list of optional times. *)
Definition max_time (l : list (option Z)) : option Z := foldl acc_max None l.

(** The group a wall must end up with. *)
Definition group_of (c : Collection) (k : option string) : Group :=
  {| g_id := k;
     g_latest_reading := max_time (timestamp_of <$> readings_of k c);
     g_device_count := last (readings_of k c) ≫= fun d => fields d !! "device_count" |}.

(** The walls of a log, each once, in the order of first appearance. *)
Definition first_keys (c : Collection) : list (option string) :=
  foldl (fun ks d => if decide (wall_of d ∈ ks) then ks else ks ++ [wall_of d])
        [] c.

(** A reading the schema accepts: the three required fields are there and
    in range, and each optional field that is there is well typed. *)
Definition valid_reading (m : gmap string value) : Prop :=
  (exists s, m !! "wall_id" = Some (VStr s) /\ s <> "") /\
  (exists n, m !! "device_count" = Some (VNum n) /\
             isInteger n = true /\ ltb n (of_Z 0) = false) /\
  (exists n, m !! "timestamp" = Some (VNum n) /\
             isInteger n = true /\ ltb (of_Z 0) n = true) /\
  (forall v, m !! "gateway_id" = Some v -> exists s, v = VStr s) /\
  (forall v, m !! "rssi" = Some v -> exists n, v = VNum n /\ n <> NaN) /\
  (forall v, m !! "snr" = Some v -> exists n, v = VNum n /\ n <> NaN) /\
  (forall v, m !! "received_at" = Some v ->
             exists n, v = VNum n /\ isInteger n = true /\ ltb (of_Z 0) n = true).

(** A query the schema accepts. *)
Definition valid_query (m : gmap string value) : Prop :=
  (forall v, m !! "wall_id" = Some v -> exists s, v = VStr s) /\
  (forall v, m !! "start_time" = Some v ->
             exists s, v = VStr s /\ isDatetime s = true) /\
  (forall v, m !! "end_time" = Some v ->
             exists s, v = VStr s /\ isDatetime s = true) /\
  (forall v, m !! "limit" = Some v ->
             exists s n, v = VStr s /\ parseInt10 s = of_Z n /\ 1 <= n <= 1000).

(** A stored reading as the service writes them: a [wall_id] that is a
    string other than the empty one, a [device_count] that is an integer
    not below 0, and dates under both stamps. *)
Definition typed_reading (d : Document) : Prop :=
  (exists s, wall_of d = Some s /\ s <> "") /\
  (exists n, fields d !! "device_count" = Some (VNum n) /\
             isInteger n = true /\ ltb n (of_Z 0) = false) /\
  (exists t, timestamp_of d = Some t) /\
  (exists t, fields d !! "created_at" = Some (VDate t)).

(** No field of the shape raises an issue on [m]. *)
Definition no_issue (shape : ZodObject) (m : gmap string value) : Prop :=
  forall k s, (k, s) ∈ shape -> snd (_parse s [k] (m !! k)) = [].

(** The limit a raw query asks for, as [parseInt] reads it. *)
Definition limit_of (m : gmap string value) : option Z :=
  match m !! "limit" with
  | Some (VStr s) => to_Z (parseInt10 s)
  | _ => None
  end.

(** The query record a raw query is normalized to. *)
Definition normalized (m : gmap string value) : Query :=
  {| q_wall_id := as_string (m !! "wall_id");
     q_start_time := as_string (m !! "start_time");
     q_end_time := as_string (m !! "end_time");
     q_limit := limit_of m |}.

(** The four routes. *)
Definition routes : list (Request -> M Response) :=
  [sensorDataRouter_post; sensorDataRouter_get; sensorDataRouter_get_walls;
   healthRouter_get].

(** *** Time ranges *)

(** The instant a time parameter of a raw query denotes; none when the
    parameter is absent. *)
Definition instant_of (v : option value) : option Z :=
  as_string v ≫= Date_parse.

(** The reading belongs to the wall the parameter names; an absent
    parameter and the empty string name none. *)
Definition of_wall (v : option value) (d : Document) : Prop :=
  match as_string v with
  | Some s => s <> "" -> wall_of d = Some s
  | None => True
  end.

(** The reading is stamped, by the server, at [lo] or later. *)
Definition not_before (lo : option Z) (d : Document) : Prop :=
  match lo with
  | Some T => exists t, timestamp_of d = Some t /\ T <= t
  | None => True
  end.

(** The reading is stamped, by the server, at [hi] or earlier. *)
Definition not_after (hi : option Z) (d : Document) : Prop :=
  match hi with
  | Some T => exists t, timestamp_of d = Some t /\ t <= T
  | None => True
  end.

(** The readings a raw query asks for. *)
Definition selected (m : gmap string value) (d : Document) : Prop :=
  of_wall (m !! "wall_id") d /\
  not_before (instant_of (m !! "start_time")) d /\
  not_after (instant_of (m !! "end_time")) d.

#[global] Instance selected_dec m d : Decision (selected m d).
Proof.
  unfold selected, of_wall, not_before, not_after.
  destruct (as_string (m !! "wall_id")),
           (instant_of (m !! "start_time")) as [T1|],
           (instant_of (m !! "end_time")) as [T2|],
           (timestamp_of d) as [t|];
    try (destruct (decide (T1 <= t))); try (destruct (decide (t <= T2)));
    try (right; intros (_ & H1 & H2);
         try destruct H1 as (? & ? & ?); try destruct H2 as (? & ? & ?);
         simplify_eq; done);
    apply and_dec; try apply _;
    try (apply and_dec; try apply _); try (left; eauto; done).
Defined.

(** *** Sample data *)

(** A connected process whose clock advances by one millisecond from one
    reading to the next, starting at [t0]; every command succeeds. *)
Definition world_at (t0 : Z) (c : Collection) : World :=
  {| clock := fun n => t0 + Z.of_nat n; clock_reads := 0; uptime := of_Z 5;
     db := true; sensor_readings := c; server := fun _ => None;
     commands := 0; next_id := length c |}.

Definition request (b q : value) : Request :=
  {| body := b; query := q; params := object [] |}.

(** A reading that carries two fields the schema does not know, one of them
    under the name of a stamp. *)
Definition reading_A : gmap string value :=
  list_to_map [("wall_id", VStr "A"); ("device_count", VNum (of_Z 3));
               ("timestamp", VNum (of_Z 1704067200000));
               ("rssi", VNum (Fin (-171 # 2)));
               ("server_timestamp", VStr "1999-01-01T00:00:00Z");
               ("note", VStr "x")].

Definition reading_bad : gmap string value :=
  list_to_map [("wall_id", VStr ""); ("device_count", VNum (of_Z (-1)));
               ("timestamp", VNum (of_Z 0));
               ("received_at", VNum (Fin (3 # 2)))].

(** A log of [n] readings of one wall, one millisecond apart. *)
Definition log_of (n : nat) : Collection :=
  (fun i => {| _id := i;
               fields := list_to_map [("wall_id", VStr "A");
                                      ("device_count", VNum (of_Z 1));
                                      ("server_timestamp", VDate (Z.of_nat i))] |})
    <$> seq 0 n.

(** A query record with a limit past the ceiling of the schema. *)
Definition query_1001 : Query :=
  {| q_wall_id := None; q_start_time := None; q_end_time := None;
     q_limit := Some 1001 |}.

Definition query_wall_B : Query :=
  {| q_wall_id := Some "B"; q_start_time := None; q_end_time := None;
     q_limit := None |}.

Definition query_at (s1 s2 : string) : Query :=
  {| q_wall_id := None; q_start_time := Some s1; q_end_time := Some s2;
     q_limit := None |}.

(** The spec's example, with a clock that was set back between the two
    readings of wall "A": the reading inserted last is not the one with the
    latest stamp. *)
Definition log_walls : Collection :=
  [ {| _id := 0;
       fields := list_to_map [("wall_id", VStr "A");
                              ("device_count", VNum (of_Z 3));
                              ("server_timestamp", VDate 5000)] |};
    {| _id := 1;
       fields := list_to_map [("wall_id", VStr "B");
                              ("device_count", VNum (of_Z 7));
                              ("server_timestamp", VDate 6000)] |};
    {| _id := 2;
       fields := list_to_map [("wall_id", VStr "A");
                              ("device_count", VNum (of_Z 5));
                              ("server_timestamp", VDate 4000)] |} ].


Definition connection_refused : thrown :=
  ThrowError {| message := "connect ECONNREFUSED 127.0.0.1:27017";
                stack := "MongoNetworkError: connect ECONNREFUSED 127.0.0.1:27017 at connectionFailureError" |}.

(** A reading with the required fields only. *)
Definition reading_min : gmap string value :=
  list_to_map [("wall_id", VStr "B"); ("device_count", VNum (of_Z 7));
               ("timestamp", VNum (of_Z 1704067200000))].

(** A driver for which every call goes through. *)
Definition driver_ok : Connection.Driver :=
  {| Connection.new_MongoClient := fun _ => None;
     Connection.client_connect := fun _ => None;
     Connection.client_db := fun _ => None;
     Connection.client_close := fun _ => None |}.

(** A driver that cannot reach the server. *)
Definition driver_down : Connection.Driver :=
  {| Connection.new_MongoClient := fun _ => None;
     Connection.client_connect := fun _ => Some connection_refused;
     Connection.client_db := fun _ => None;
     Connection.client_close := fun _ => None |}.

(** *** Tactics *)

Ltac run_M :=
  unfold route, validateRequest, try_catch, getDatabase, throw, new_Date,
    process_uptime, db_insertOne, db_find, db_aggregate_walls, db_ping,
    command, mbind, M_bind, mret, M_ret; simpl.

(** Membership in a list that is written out. *)
Ltac in_list := apply list_elem_of_In; simpl; tauto.

(* ===================================================================== *)
(** ** The built-ins, on examples                                        *)
(* ===================================================================== *)

Example parseInt_plain : parseInt10 "42" = of_Z 42.
Proof. reflexivity. Qed.

Example parseInt_prefix : parseInt10 "  -12abc" = of_Z (-12).
Proof. reflexivity. Qed.

Example parseInt_nan : parseInt10 "abc" = NaN.
Proof. reflexivity. Qed.

Example date_epoch : Date_parse "1970-01-01T00:00:00Z" = Some 0.
Proof. reflexivity. Qed.

Example date_2024 : Date_parse "2024-01-01T00:00:00.000Z" = Some 1704067200000.
Proof. reflexivity. Qed.

Example date_no_such_day : Date_parse "2023-02-29T00:00:00Z" = None.
Proof. reflexivity. Qed.

Example iso_2024 : toISOString 1704067200123 = "2024-01-01T00:00:00.123Z"%string.
Proof. reflexivity. Qed.

(* ===================================================================== *)
(** ** Properties of the validator                                       *)
(* ===================================================================== *)

Section ZodFacts.

Implicit Types (s : schema) (p : list string) (data : option value).

Lemma with_issues_fst v iss :
  fst (with_issues v iss) = match iss with [] => OK (Some v) | _ => DIRTY (Some v) end.
Proof. by destruct iss. Qed.

Lemma with_issues_snd v iss : snd (with_issues v iss) = iss.
Proof. by destruct iss. Qed.

(** A parse that raised no issue is valid: neither aborted nor dirty. *)
Lemma parse_clean_OK s : forall p data r,
  _parse s p data = (r, []) -> exists v, r = OK v.
Proof.
  induction s as [cs|cs|s IH|s IH f|s1 IH1 s2 IH2]; intros p data r H; simpl in H.
  - destruct data as [[]|]; try discriminate.
    destruct (flat_map _ _) eqn:E; simpl in H; inversion H; eauto.
  - destruct data as [[| |[]| | | | |]|]; try discriminate;
      destruct (flat_map _ _) eqn:E; simpl in H; inversion H; eauto.
  - destruct data; [eauto|]. inversion H; eauto.
  - destruct (_parse s p data) as [[] iss] eqn:E; inversion H; subst; eauto.
  - destruct (_parse s1 p data) as [[| |v] iss] eqn:E.
    + inversion H; subst. apply IH1 in E as [? ?]; discriminate.
    + inversion H; subst. apply IH1 in E as [? ?]; discriminate.
    + destruct (_parse s2 p v) as [r' iss'] eqn:E'. inversion H; subst.
      apply app_eq_nil in H2 as [-> ->]. eauto.
Qed.

(** Every issue carries the path of the field that raised it. *)
Lemma parse_issue_path s : forall p data i,
  i ∈ snd (_parse s p data) -> path i = p.
Proof.
  induction s as [cs|cs|s IH|s IH f|s1 IH1 s2 IH2]; intros p data i; simpl.
  - destruct data as [[]|]; simpl; rewrite ?with_issues_snd;
      try (intros ->%list_elem_of_singleton; done).
    intros (c & _ & Hi)%list_elem_of_In%in_flat_map. revert Hi.
    destruct c; simpl; case_match; simpl; intros []; subst; done.
  - destruct data as [[| |[]| | | | |]|]; simpl; rewrite ?with_issues_snd;
      try (intros ->%list_elem_of_singleton; done);
      intros (c & _ & Hi)%list_elem_of_In%in_flat_map; revert Hi;
      destruct c; simpl; repeat case_match; simpl; intros []; subst; done.
  - destruct data; [apply IH|]. simpl. by intros ?%elem_of_nil.
  - specialize (IH p data i). destruct (_parse s p data) as [[] iss]; exact IH.
  - specialize (IH1 p data i).
    destruct (_parse s1 p data) as [[| |v] iss]; try exact IH1.
    specialize (IH2 p v i). destruct (_parse s2 p v) as [r' iss']. simpl in *.
    intros [?|?]%elem_of_app; auto.
Qed.

Lemma parse_plain s : forall p data v iss,
  plain s = true -> _parse s p data = (OK v, iss) -> v = data.
Proof.
  induction s as [cs|cs|s IH|s IH f|s1 IH1 s2 IH2]; intros p data v iss Hp H;
    simpl in *; try discriminate.
  - destruct data as [[]|]; try discriminate.
    destruct (flat_map _ _); simpl in H; by inversion H.
  - destruct data as [[| |[]| | | | |]|]; try discriminate;
      destruct (flat_map _ _); simpl in H; by inversion H.
  - destruct data; [eauto|]. by inversion H.
  - apply andb_true_iff in Hp as [Hp1 Hp2].
    destruct (_parse s1 p data) as [[| |v1] iss1] eqn:E1; try discriminate.
    destruct (_parse s2 p v1) as [r' iss'] eqn:E2. inversion H; subst.
    apply IH1 in E1; auto. apply IH2 in E2; auto. congruence.
Qed.

(** The validated object has a key only where a pair of the shape gave a
    value. *)
Lemma merge_lookup_Some pairs : forall out k v,
  mergeObjectSync pairs = Some out -> out !! k = Some v ->
  exists kv, kv ∈ pairs /\ kv.1 = k /\ pair_value kv = Some v.
Proof.
  induction pairs as [|[k' [r iss]] rest IH]; intros out k v H Hk; simpl in H.
  - inversion H; subst. by rewrite lookup_empty in Hk.
  - assert (exists o, mergeObjectSync rest = Some o /\
              out = match pair_value (k', (r, iss)) with
                    | Some x => <[k' := x]> o | None => o end /\ r <> INVALID)
      as (o & Ho & -> & _).
    { destruct r; try discriminate;
        destruct (mergeObjectSync rest) as [o|]; try discriminate;
        simpl in H; inversion H; eauto. }
    destruct (pair_value (k', (r, iss))) as [x|] eqn:Ex.
    + destruct (decide (k' = k)) as [->|Hne].
      * rewrite lookup_insert_eq in Hk. inversion Hk; subst.
        exists (k, (r, iss)). split; [left|done].
      * rewrite lookup_insert_ne in Hk by done.
        destruct (IH _ _ _ Ho Hk) as (kv & ? & ? & ?).
        exists kv. split; [by right|done].
    + destruct (IH _ _ _ Ho Hk) as (kv & ? & ? & ?).
      exists kv. split; [by right|done].
Qed.

(** With each key once in the shape, the validated object has, under every
    key of the shape, exactly the value its pair gave. *)
Lemma merge_lookup_pair pairs : forall out kv,
  NoDup pairs.*1 -> mergeObjectSync pairs = Some out -> kv ∈ pairs ->
  out !! kv.1 = pair_value kv.
Proof.
  induction pairs as [|[k' [r iss]] rest IH]; intros out kv Hnd H Hin; simpl in H.
  - by apply elem_of_nil in Hin.
  - assert (exists o, mergeObjectSync rest = Some o /\
              out = match pair_value (k', (r, iss)) with
                    | Some x => <[k' := x]> o | None => o end)
      as (o & Ho & ->).
    { destruct r; try discriminate;
        destruct (mergeObjectSync rest) as [o|]; try discriminate;
        simpl in H; inversion H; eauto. }
    apply NoDup_cons in Hnd as [Hk' Hnd].
    apply elem_of_cons in Hin as [->|Hin]; simpl.
    + destruct (pair_value (k', (r, iss))) as [x|] eqn:Ex.
      * by rewrite lookup_insert_eq.
      * destruct (o !! k') as [y|] eqn:Ey; [|done].
        destruct (merge_lookup_Some _ _ _ _ Ho Ey) as (kv & Hkv & <- & _).
        exfalso. apply Hk'. apply list_elem_of_fmap. by exists kv.
    + assert (kv.1 <> k') as Hne.
      { intros <-. apply Hk'. apply list_elem_of_fmap. by exists kv. }
      destruct (pair_value (k', (r, iss))).
      * rewrite lookup_insert_ne by done. eauto.
      * eauto.
Qed.

Lemma object_pairs_keys shape m : (object_pairs shape m).*1 = shape.*1.
Proof.
  unfold object_pairs. rewrite <- list_fmap_compose.
  apply list_fmap_ext. by intros _ [k s] _.
Qed.

Lemma elem_of_object_pairs shape m kv :
  kv ∈ object_pairs shape m <->
  exists s, (kv.1, s) ∈ shape /\ kv.2 = _parse s [kv.1] (m !! kv.1).
Proof.
  unfold object_pairs. rewrite list_elem_of_fmap. split.
  - intros ([k s] & -> & Hin). by exists s.
  - intros (s & Hin & Hkv). exists (kv.1, s). split; [|done].
    destruct kv as [k r]. simpl in *. by subst.
Qed.

(** An issue raised by any field makes [parse] fail, and is reported. *)
Lemma parse_reports shape m k s i :
  (k, s) ∈ shape -> i ∈ snd (_parse s [k] (m !! k)) ->
  exists issues, parse shape (VObj m) = inr issues /\ i ∈ issues.
Proof.
  intros Hin Hi. unfold parse.
  set (issues := flat_map _ _).
  assert (i ∈ issues) as Hii.
  { apply list_elem_of_In, in_flat_map.
    exists (k, _parse s [k] (m !! k)). split; [|by apply list_elem_of_In].
    apply list_elem_of_In, elem_of_object_pairs. by exists s. }
  destruct issues as [|i0 issues'] eqn:E; [by apply elem_of_nil in Hii|].
  eauto.
Qed.

(** A successful [parse]: no field raised an issue, and the validated
    object holds the parsed value of each key of the shape and nothing
    else. *)
Lemma parse_inl shape m out :
  NoDup shape.*1 -> parse shape (VObj m) = inl out ->
  (forall k s, (k, s) ∈ shape ->
     exists v, _parse s [k] (m !! k) = (OK v, []) /\ out !! k = v) /\
  (forall k, k ∉ shape.*1 -> out !! k = None).
Proof.
  intros Hnd H. unfold parse in H.
  destruct (flat_map _ _) as [|] eqn:Eiss; [|discriminate].
  destruct (mergeObjectSync _) as [o|] eqn:Em; [|discriminate].
  inversion H; subst o. split.
  - intros k s Hin.
    destruct (_parse s [k] (m !! k)) as [r iss] eqn:E.
    assert ((k, (r, iss)) ∈ object_pairs shape m) as Hp.
    { apply elem_of_object_pairs. exists s. simpl. by rewrite E. }
    assert (iss = []) as ->.
    { destruct iss as [|i iss]; [done|]. exfalso.
      assert (In i (flat_map (fun kv => kv.2.2) (object_pairs shape m))) as Hi.
      { apply in_flat_map. exists (k, (r, i :: iss)).
        split; [by apply list_elem_of_In|by left]. }
      rewrite Eiss in Hi. destruct Hi. }
    destruct (parse_clean_OK _ _ _ _ E) as [v ->]. exists v. split; [done|].
    rewrite <- (object_pairs_keys shape m) in Hnd.
    apply (merge_lookup_pair _ _ _ Hnd Em Hp).
  - intros k Hk. destruct (out !! k) as [v|] eqn:E; [|done].
    destruct (merge_lookup_Some _ _ _ _ Em E) as (kv & Hkv & <- & _).
    exfalso. apply Hk. rewrite <- (object_pairs_keys shape m).
    apply list_elem_of_fmap. by exists kv.
Qed.

(** When no field raises an issue, [parse] succeeds. *)
Lemma parse_succeeds shape m :
  (forall k s, (k, s) ∈ shape -> snd (_parse s [k] (m !! k)) = []) ->
  exists out, parse shape (VObj m) = inl out.
Proof.
  intros H. unfold parse.
  assert (flat_map (fun kv => kv.2.2) (object_pairs shape m) = [] /\
          exists o, mergeObjectSync (object_pairs shape m) = Some o)
    as [-> [o ->]]; [|eauto].
  unfold object_pairs. induction shape as [|[k s] rest IH].
  { split; [done|]. by exists ∅. }
  destruct IH as [IH1 [o IH2]].
  { intros k' s' Hin. apply H. by right. }
  rewrite fmap_cons. cbn [flat_map mergeObjectSync].
  rewrite IH1, IH2.
  destruct (_parse s [k] (m !! k)) as [r iss] eqn:E.
  specialize (H k s ltac:(left)). rewrite E in H. simpl in H. subst iss.
  destruct (parse_clean_OK _ _ _ _ E) as [v ->]. simpl. eauto.
Qed.

End ZodFacts.

(* ===================================================================== *)
(** ** How each route runs                                               *)
(* ===================================================================== *)

(** [POST /] step by step: a validation failure answers 400 and touches
    nothing; without a database handle the answer is 500 and nothing is
    touched; a failing insert answers 500 and writes nothing; otherwise the
    stamped document is appended. *)
Lemma post_run req w :
  sensorDataRouter_post req w =
  match parse sensorDataSchema (body req) with
  | inr errors => (inl (validation_failed errors), w)
  | inl data =>
      if db w then
        match server w (commands w) with
        | Some e =>
            (inl (failure "Failed to save sensor data"), sent (tick (tick w)))
        | None =>
            (inl (created (next_id w)),
             stored (insertOne (next_id w) (stamped data w) (sensor_readings w))
                    (sent (tick (tick w))))
        end
      else (inl (failure "Failed to save sensor data"), w)
  end.
Proof.
  unfold sensorDataRouter_post, post_handler. run_M.
  destruct (parse sensorDataSchema (body req)) as [data|errors]; [|done].
  simpl. destruct (db w); [|done].
  simpl. destruct (server w (commands w)); done.
Qed.

Lemma sensorDataSchema_keys :
  sensorDataSchema.*1 =
  ["wall_id"; "device_count"; "timestamp"; "gateway_id"; "rssi"; "snr";
   "received_at"].
Proof. reflexivity. Qed.

Lemma sensorDataSchema_NoDup : NoDup sensorDataSchema.*1.
Proof. rewrite sensorDataSchema_keys. by apply (bool_decide_unpack _). Qed.

Lemma sensorDataSchema_plain k s : (k, s) ∈ sensorDataSchema -> plain s = true.
Proof.
  unfold sensorDataSchema. rewrite !elem_of_cons, elem_of_nil.
  intros H. repeat destruct H as [H|H]; try done; by inversion H.
Qed.

(** The validated reading is the input cut down to the keys of the schema,
    each with the value it came with. *)
Lemma validated_reading m data k :
  parse sensorDataSchema (VObj m) = inl data ->
  data !! k = if decide (k ∈ sensorDataSchema.*1) then m !! k else None.
Proof.
  intros H. destruct (parse_inl _ _ _ sensorDataSchema_NoDup H) as [Hin Hout].
  case_decide as Hk; [|by apply Hout].
  apply list_elem_of_fmap in Hk as ([k' s] & -> & Hs). simpl.
  destruct (Hin _ _ Hs) as (v & Hv & ->).
  eapply parse_plain; [|exact Hv]. by eapply sensorDataSchema_plain.
Qed.

(** Only objects validate. *)
Lemma parse_inl_object shape data out :
  parse shape data = inl out -> exists m, data = VObj m.
Proof. destruct data; try discriminate. eauto. Qed.

(** A created reading, in full: the log grows by one document, made of the
    validated fields and the two readings of the clock. *)
Lemma post_created req w res w' :
  sensorDataRouter_post req w = (inl res, w') -> statusCode res = 201 ->
  exists m data,
    body req = VObj m /\ parse sensorDataSchema (VObj m) = inl data /\
    res = created (next_id w) /\
    sensor_readings w' =
      sensor_readings w ++ [{| _id := next_id w; fields := stamped data w |}].
Proof.
  rewrite post_run. intros H Hs.
  destruct (parse sensorDataSchema (body req)) as [data|errors] eqn:E.
  - destruct (parse_inl_object _ _ _ E) as [m Hm]. rewrite Hm in E.
    destruct (db w); [|inversion H; subst; discriminate].
    destruct (server w (commands w)); inversion H; subst; [discriminate|].
    exists m, data. done.
  - inversion H; subst; discriminate.
Qed.

(** A rejected reading, in full. *)
Lemma post_rejected req w m i k s :
  body req = VObj m -> (k, s) ∈ sensorDataSchema ->
  i ∈ snd (_parse s [k] (m !! k)) ->
  exists errors,
    sensorDataRouter_post req w = (inl (validation_failed errors), w) /\
    i ∈ errors /\ path i = [k].
Proof.
  intros Hb Hs Hi. rewrite post_run, Hb.
  destruct (parse_reports _ m _ _ _ Hs Hi) as (errors & -> & Hin).
  exists errors. split; [done|split; [done|]]. by eapply parse_issue_path.
Qed.

(* ===================================================================== *)
(** ** Ingestion                                                         *)
(* ===================================================================== *)

Lemma ltb_leb_zero n : n <> NaN -> ltb (of_Z 0) n = negb (leb n (of_Z 0)).
Proof. by destruct n. Qed.

(** What [z.number().int().positive()] lets through. *)
Lemma positive_int_field p v :
  snd (_parse (ZodNumber [check_int; check_min 0 false]) p (Some v)) = [] <->
  exists n, v = VNum n /\ isInteger n = true /\ ltb (of_Z 0) n = true.
Proof.
  split.
  - destruct v as [| |n| | | | |]; try discriminate.
    destruct n as [q| | |]; try discriminate; simpl; rewrite with_issues_snd;
      simpl; repeat case_match; try discriminate; intros _;
      eexists; (split; [done|]); split; try done.
    simpl. by destruct (Qle_bool q (inject_Z 0)).
  - intros (n & -> & Hi & Hp). destruct n as [q| | |]; try discriminate.
    simpl. rewrite with_issues_snd. simpl. simpl in Hi. rewrite Hi.
    simpl in Hp. by destruct (Qle_bool q (inject_Z 0)).
Qed.

(** C2. A reading whose [device_count] is below 0, whose [wall_id] is the
    empty string, or whose [timestamp] is not above 0 is answered with 400
    and the list of issues, which names each offending field by its path;
    the world after the request is the world before it, so nothing was
    written. *)
Theorem invalid_reading_rejected req w m :
  body req = VObj m ->
  (exists n, m !! "device_count" = Some (VNum n) /\ ltb n (of_Z 0) = true) \/
  m !! "wall_id" = Some (VStr "") \/
  (exists n, m !! "timestamp" = Some (VNum n) /\ leb n (of_Z 0) = true) ->
  exists errors,
    sensorDataRouter_post req w = (inl (validation_failed errors), w) /\
    sensor_readings (snd (sensorDataRouter_post req w)) = sensor_readings w /\
    ((exists n, m !! "device_count" = Some (VNum n) /\ ltb n (of_Z 0) = true) ->
       {| code := too_small; path := ["device_count"] |} ∈ errors) /\
    (m !! "wall_id" = Some (VStr "") ->
       {| code := too_small; path := ["wall_id"] |} ∈ errors) /\
    ((exists n, m !! "timestamp" = Some (VNum n) /\ leb n (of_Z 0) = true) ->
       {| code := too_small; path := ["timestamp"] |} ∈ errors).
Proof.
  intros Hb Hbad.
  assert (forall i k s, (k, s) ∈ sensorDataSchema ->
            i ∈ snd (_parse s [k] (m !! k)) ->
            exists errors, parse sensorDataSchema (VObj m) = inr errors /\ i ∈ errors)
    as Hrep by (intros; by eapply parse_reports).
  assert (forall n, m !! "device_count" = Some (VNum n) -> ltb n (of_Z 0) = true ->
            {| code := too_small; path := ["device_count"] |}
              ∈ snd (_parse (ZodNumber [check_int; check_min 0 true])
                            ["device_count"] (m !! "device_count"))) as Hdc.
  { intros n -> Hn. destruct n; try discriminate; simpl;
      rewrite ?with_issues_snd; simpl; simpl in Hn; rewrite ?Hn;
      repeat case_match; in_list. }
  assert (m !! "wall_id" = Some (VStr "") ->
            {| code := too_small; path := ["wall_id"] |}
              ∈ snd (_parse (ZodString [check_min_length 1])
                            ["wall_id"] (m !! "wall_id"))) as Hw.
  { intros ->. simpl. in_list. }
  assert (forall n, m !! "timestamp" = Some (VNum n) -> leb n (of_Z 0) = true ->
            {| code := too_small; path := ["timestamp"] |}
              ∈ snd (_parse (ZodNumber [check_int; check_min 0 false])
                            ["timestamp"] (m !! "timestamp"))) as Ht.
  { intros n -> Hn. destruct n; try discriminate; simpl;
      rewrite ?with_issues_snd; simpl; simpl in Hn; rewrite ?Hn;
      repeat case_match; in_list. }
  assert (exists errors, parse sensorDataSchema (VObj m) = inr errors)
    as [errors He].
  { destruct Hbad as [(n & H1 & H2)|[H|(n & H1 & H2)]].
    - edestruct Hrep as (e & ? & _); [|by eapply Hdc|by eauto]. in_list.
    - edestruct Hrep as (e & ? & _); [|by eapply Hw|by eauto]. in_list.
    - edestruct Hrep as (e & ? & _); [|by eapply Ht|by eauto]. in_list. }
  exists errors. rewrite post_run, Hb, He. simpl.
  split; [done|split; [done|]].
  split; [|split].
  - intros (n & H1 & H2).
    edestruct Hrep as (e & He' & Hin); [|by eapply Hdc|]; [in_list|].
    congruence.
  - intros H.
    edestruct Hrep as (e & He' & Hin); [|by eapply Hw|]; [in_list|].
    congruence.
  - intros (n & H1 & H2).
    edestruct Hrep as (e & He' & Hin); [|by eapply Ht|]; [in_list|].
    congruence.
Qed.

(** C10. When [received_at] is present, the reading is accepted only if it
    is an integer above 0; any other value (0, a negative number, a
    fraction, an infinity, or something that is no number) is answered with
    400 and an issue whose path is [received_at], and the world is left as
    it was. *)
Theorem received_at_positive_integer req w m v :
  body req = VObj m -> m !! "received_at" = Some v ->
  (forall res w',
     sensorDataRouter_post req w = (inl res, w') -> statusCode res <> 400 ->
     exists n, v = VNum n /\ isInteger n = true /\ ltb (of_Z 0) n = true) /\
  ((forall n, v = VNum n -> isInteger n = true -> ltb (of_Z 0) n = true -> False) ->
     exists errors i,
       sensorDataRouter_post req w = (inl (validation_failed errors), w) /\
       i ∈ errors /\ path i = ["received_at"]).
Proof.
  intros Hb Hv.
  assert (("received_at",
           ZodOptional (ZodNumber [check_int; check_min 0 false]))
            ∈ sensorDataSchema) as Hs by in_list.
  split.
  - intros res w'. rewrite post_run, Hb.
    destruct (parse sensorDataSchema (VObj m)) as [data|errors] eqn:E.
    + intros _ _.
      destruct (parse_inl _ _ _ sensorDataSchema_NoDup E) as [Hin _].
      destruct (Hin _ _ Hs) as (x & Hx & _). rewrite Hv in Hx. simpl in Hx.
      apply (positive_int_field ["received_at"]). simpl.
      destruct v as [| |[]| | | | |]; simpl in *; by rewrite ?Hx.
    + intros H. inversion H; subst. done.
  - intros Hbad.
    destruct (snd (_parse (ZodOptional (ZodNumber [check_int; check_min 0 false]))
                          ["received_at"] (m !! "received_at")))
      as [|i rest] eqn:E.
    + exfalso. rewrite Hv in E.
      apply (positive_int_field ["received_at"] v) in E as (n & ? & ? & ?).
      eauto.
    + destruct (post_rejected req w m i _ _ Hb Hs) as (errors & ? & ? & ?).
      { rewrite E. by left. }
      eauto.
Qed.

Lemma invalid_reading_rejected_witness :
  exists errors,
    sensorDataRouter_post (request (VObj reading_bad) VNull) (world_at 1000 [])
      = (inl (validation_failed errors), world_at 1000 []) /\
    {| code := too_small; path := ["device_count"] |} ∈ errors.
Proof.
  destruct (invalid_reading_rejected
              (request (VObj reading_bad) VNull) (world_at 1000 []) reading_bad)
    as (errors & H & _ & Hdc & _).
  - reflexivity.
  - left. exists (of_Z (-1)). split; reflexivity.
  - exists errors. split; [exact H|]. apply Hdc.
    exists (of_Z (-1)). split; reflexivity.
Defined.

Lemma received_at_positive_integer_witness :
  exists errors i,
    sensorDataRouter_post (request (VObj reading_bad) VNull) (world_at 1000 [])
      = (inl (validation_failed errors), world_at 1000 []) /\
    i ∈ errors /\ path i = ["received_at"].
Proof.
  apply (received_at_positive_integer
           (request (VObj reading_bad) VNull) (world_at 1000 []) reading_bad
           (VNum (Fin (3 # 2)))).
  - reflexivity.
  - reflexivity.
  - intros n Hn Hi _. inversion Hn; subst. discriminate.
Defined.

(** C7. A created reading is stored as the fields of the schema that the
    body carried, each with the value it came with, plus the two stamps the
    system adds; no other key of the body reaches the log. *)
Theorem unknown_fields_never_persisted req w res w' :
  sensorDataRouter_post req w = (inl res, w') -> statusCode res = 201 ->
  exists doc,
    sensor_readings w' = sensor_readings w ++ [doc] /\
    forall k,
      fields doc !! k =
        if decide (k = "created_at")
        then Some (VDate (clock w (S (clock_reads w))))
        else if decide (k = "server_timestamp")
        then Some (VDate (clock w (clock_reads w)))
        else if decide (k ∈ sensorDataSchema.*1) then get (body req) k
        else None.
Proof.
  intros H Hs. destruct (post_created _ _ _ _ H Hs) as (m & data & Hb & Hp & _ & Hlog).
  eexists. split; [exact Hlog|]. intros k. simpl. unfold stamped.
  rewrite !lookup_insert. repeat case_decide; try congruence.
  - rewrite (validated_reading _ _ _ Hp), Hb. simpl. by rewrite decide_True.
  - rewrite (validated_reading _ _ _ Hp). by rewrite decide_False.
Qed.

Lemma unknown_fields_never_persisted_witness :
  exists doc,
    sensor_readings
      (snd (sensorDataRouter_post (request (VObj reading_A) VNull) (world_at 1000 [])))
      = [] ++ [doc] /\
    fields doc !! "note" = None /\
    fields doc !! "rssi" = Some (VNum (Fin (-171 # 2))).
Proof.
  destruct (unknown_fields_never_persisted
              (request (VObj reading_A) VNull) (world_at 1000 [])
              (created 0)
              (snd (sensorDataRouter_post (request (VObj reading_A) VNull)
                                          (world_at 1000 []))))
    as (doc & Hlog & Hk).
  - reflexivity.
  - reflexivity.
  - exists doc. split; [exact Hlog|]. split.
    + rewrite (Hk "note"). reflexivity.
    + rewrite (Hk "rssi"). reflexivity.
Defined.

(** C6, as the code has it.  A created reading carries under
    [server_timestamp] the first and under [created_at] the second of two
    successive readings of the system clock, whatever the body held under
    those names (the schema does not know them, so they are dropped before
    the stamps are set); the two stamps are the same instant whenever the
    clock did not advance between the two readings. *)
Theorem stamps_are_system_generated req w res w' :
  sensorDataRouter_post req w = (inl res, w') -> statusCode res = 201 ->
  exists doc,
    sensor_readings w' = sensor_readings w ++ [doc] /\
    fields doc !! "server_timestamp" = Some (VDate (clock w (clock_reads w))) /\
    fields doc !! "created_at" = Some (VDate (clock w (S (clock_reads w)))) /\
    (clock w (S (clock_reads w)) = clock w (clock_reads w) ->
     fields doc !! "created_at" = fields doc !! "server_timestamp").
Proof.
  intros H Hs. destruct (post_created _ _ _ _ H Hs) as (m & data & _ & _ & _ & Hlog).
  eexists. split; [exact Hlog|]. simpl. unfold stamped.
  rewrite lookup_insert_eq, lookup_insert_ne, lookup_insert_eq by done.
  repeat split. by intros ->.
Qed.

Lemma stamps_are_system_generated_witness :
  exists doc,
    sensor_readings
      (snd (sensorDataRouter_post (request (VObj reading_A) VNull) (world_at 1000 [])))
      = [] ++ [doc] /\
    fields doc !! "server_timestamp" = Some (VDate 1000).
Proof.
  destruct (stamps_are_system_generated
              (request (VObj reading_A) VNull) (world_at 1000 [])
              (created 0)
              (snd (sensorDataRouter_post (request (VObj reading_A) VNull)
                                          (world_at 1000 []))))
    as (doc & Hlog & Hst & _).
  - reflexivity.
  - reflexivity.
  - exists doc. split; [exact Hlog|exact Hst].
Defined.

(** C6, the claim as stated fails: with a clock that advances between the
    two readings, the stored [created_at] is one millisecond after the stored
    [server_timestamp]. *)
Lemma stamps_differ_when_clock_advances :
  exists doc,
    sensor_readings
      (snd (sensorDataRouter_post (request (VObj reading_A) VNull) (world_at 1000 [])))
      = [doc] /\
    fields doc !! "server_timestamp" = Some (VDate 1000) /\
    fields doc !! "created_at" = Some (VDate 1001) /\
    fields doc !! "created_at" <> fields doc !! "server_timestamp".
Proof.
  eexists. split; [reflexivity|]. repeat split. discriminate.
Qed.

(** What [z.string().min(1)] lets through. *)
Lemma nonempty_string_field p data :
  snd (_parse (ZodString [check_min_length 1]) p data) = [] ->
  exists s, data = Some (VStr s) /\ s <> "".
Proof.
  destruct data as [[| | |s| | | |]|]; try discriminate.
  simpl. destruct s; [discriminate|]. intros _. by eexists.
Qed.

(** What [z.number().int().min(0)] lets through. *)
Lemma count_field p data :
  snd (_parse (ZodNumber [check_int; check_min 0 true]) p data) = [] ->
  exists n, data = Some (VNum n) /\ isInteger n = true /\ ltb n (of_Z 0) = false.
Proof.
  destruct data as [[| |n| | | | |]|]; try discriminate.
  destruct n as [q| | |]; try discriminate; simpl; rewrite ?with_issues_snd;
    simpl; repeat case_match; try discriminate; intros _;
    eexists; (split; [done|]); by split.
Qed.

(** The log only ever receives typed readings: a created reading has a
    [wall_id] that is a string other than the empty one, a [device_count]
    that is an integer not below 0, and a date as its [server_timestamp]. *)
Lemma post_stores_reading req w res w' :
  sensorDataRouter_post req w = (inl res, w') -> statusCode res = 201 ->
  exists doc s n,
    last (sensor_readings w') = Some doc /\
    wall_of doc = Some s /\ s <> "" /\
    fields doc !! "device_count" = Some (VNum n) /\
    isInteger n = true /\ ltb n (of_Z 0) = false /\
    timestamp_of doc = Some (clock w (clock_reads w)).
Proof.
  intros H Hs.
  destruct (post_created _ _ _ _ H Hs) as (m & data & Hb & Hp & _ & Hlog).
  destruct (parse_inl _ _ _ sensorDataSchema_NoDup Hp) as [Hin _].
  destruct (Hin "wall_id" (ZodString [check_min_length 1]) ltac:(in_list))
    as (v1 & Hv1 & Hd1).
  destruct (Hin "device_count" (ZodNumber [check_int; check_min 0 true])
              ltac:(in_list)) as (v2 & Hv2 & Hd2).
  destruct (nonempty_string_field ["wall_id"] (m !! "wall_id"))
    as (s & Hm1 & Hne); [by rewrite Hv1|].
  destruct (count_field ["device_count"] (m !! "device_count"))
    as (n & Hm2 & Hi & Hn); [by rewrite Hv2|].
  pose proof (validated_reading m data "wall_id" Hp) as E1.
  pose proof (validated_reading m data "device_count" Hp) as E2.
  rewrite decide_True in E1 by in_list. rewrite decide_True in E2 by in_list.
  eexists _, s, n. rewrite Hlog, last_snoc. split; [done|].
  unfold wall_of, timestamp_of, stamped. simpl.
  rewrite !lookup_insert_ne by done. rewrite lookup_insert_eq, E1, E2, Hm1, Hm2.
  done.
Qed.

(* ===================================================================== *)
(** ** Numbers and parseInt                                              *)
(* ===================================================================== *)

Lemma ltb_of_Z a b : ltb (of_Z a) (of_Z b) = (a <? b).
Proof.
  unfold ltb, of_Z, Qle_bool, inject_Z. simpl.
  rewrite !Z.mul_1_r. destruct (Z.leb_spec b a), (Z.ltb_spec a b); simpl; lia.
Qed.

Lemma leb_of_Z a b : leb (of_Z a) (of_Z b) = (a <=? b).
Proof.
  unfold leb, of_Z, Qle_bool, inject_Z. simpl. by rewrite !Z.mul_1_r.
Qed.

Lemma isInteger_of_Z a : isInteger (of_Z a) = true.
Proof.
  unfold isInteger, of_Z, inject_Z. simpl. rewrite Z.mod_1_r. reflexivity.
Qed.

Lemma of_Z_inj a b : of_Z a = of_Z b -> a = b.
Proof. unfold of_Z, inject_Z. by inversion 1. Qed.

Lemma to_Z_of_Z a : to_Z (of_Z a) = Some a.
Proof. unfold to_Z. rewrite isInteger_of_Z. simpl. by rewrite Z.div_1_r. Qed.

Lemma parseInt10_cases s : parseInt10 s = NaN \/ exists n, parseInt10 s = of_Z n.
Proof. unfold parseInt10. repeat case_match; eauto. Qed.

Lemma digits_app ds : forall rest acc,
  all_chars is_digit ds = true -> starts_with is_digit rest = false ->
  digits (ds +:+ rest) acc =
    match ds with
    | EmptyString => acc
    | _ => Some (decimal_from (default 0 acc) ds)
    end.
Proof.
  induction ds as [|c ds IH]; intros rest acc Hd Hr; simpl.
  - destruct rest as [|c r]; [done|]. simpl in *.
    unfold is_digit in Hr. destruct (digit_of c); [|done].
    exfalso. apply bool_decide_eq_false in Hr. eauto.
  - simpl in Hd. apply andb_true_iff in Hd as [Hc Hd].
    unfold is_digit in Hc. apply bool_decide_eq_true in Hc as [d Hc].
    rewrite Hc. simpl. rewrite (IH rest _ Hd Hr). simpl.
    by destruct ds.
Qed.

Lemma digits_split s :
  exists ds rest, s = ds +:+ rest /\ all_chars is_digit ds = true /\
                  starts_with is_digit rest = false.
Proof.
  induction s as [|c s (ds & rest & -> & Hd & Hr)].
  - by exists "", "".
  - destruct (is_digit c) eqn:Ec.
    + exists (String c ds), rest. simpl. by rewrite Ec, Hd.
    + exists "", (String c (ds +:+ rest)). done.
Qed.

Lemma trimStart_app ws : forall x,
  all_chars isWhiteSpace ws = true -> starts_with isWhiteSpace x = false ->
  trimStart (ws +:+ x) = x.
Proof.
  induction ws as [|c ws IH]; intros x Hw Hx; simpl.
  - destruct x as [|c x]; [done|]. simpl in *. by rewrite Hx.
  - simpl in Hw. apply andb_true_iff in Hw as [-> Hw]. by apply IH.
Qed.

Lemma trimStart_split s :
  exists ws, s = ws +:+ trimStart s /\ all_chars isWhiteSpace ws = true /\
             starts_with isWhiteSpace (trimStart s) = false.
Proof.
  induction s as [|c s (ws & Hs & Hw & Hx)]; simpl.
  - by exists "".
  - destruct (isWhiteSpace c) eqn:Ec.
    + exists (String c ws). split; [exact (f_equal (String c) Hs)|].
      simpl. by rewrite Ec, Hw.
    + exists "". simpl. by rewrite Ec.
Qed.

Lemma digit_not_space c : is_digit c = true -> isWhiteSpace c = false.
Proof. by destruct c as [[] [] [] [] [] [] [] []]. Qed.

Lemma digit_not_sign c :
  is_digit c = true -> Ascii.eqb c "-" = false /\ Ascii.eqb c "+" = false.
Proof. by destruct c as [[] [] [] [] [] [] [] []]. Qed.

Lemma parseInt10_body s :
  parseInt10 s =
  let number_of sign r :=
    match digits r None with Some n => of_Z (sign * n) | None => NaN end in
  match trimStart s with
  | String c r =>
      if Ascii.eqb c "-" then number_of (-1) r
      else if Ascii.eqb c "+" then number_of 1 r
      else number_of 1 (String c r)
  | EmptyString => NaN
  end.
Proof. unfold parseInt10. by repeat case_match; simplify_eq. Qed.

Lemma parseInt10_spec s n : parseInt10 s = of_Z n <-> numeric_prefix s n.
Proof.
  rewrite parseInt10_body. cbv zeta. split.
  - intros H.
    destruct (trimStart_split s) as (ws & Hs & Hw & Hx).
    destruct (trimStart s) as [|c r] eqn:Eb; [discriminate|].
    destruct (Ascii.eqb_spec c "-") as [->|Hm];
      [|destruct (Ascii.eqb_spec c "+") as [->|Hp]].
    + destruct (digits_split r) as (ds & rest & -> & Hd & Hr).
      rewrite (digits_app _ _ _ Hd Hr) in H.
      destruct ds as [|d ds]; [discriminate|]. apply of_Z_inj in H.
      exists ws, "-", (String d ds), rest.
      split; [exact Hs|]. split; [done|]. split; [|done].
      right; right. split; [done|]. unfold decimal. simpl in *. lia.
    + destruct (digits_split r) as (ds & rest & -> & Hd & Hr).
      rewrite (digits_app _ _ _ Hd Hr) in H.
      destruct ds as [|d ds]; [discriminate|]. apply of_Z_inj in H.
      exists ws, "+", (String d ds), rest.
      split; [exact Hs|]. split; [done|]. split; [|done].
      right; left. split; [done|]. unfold decimal. simpl in *. lia.
    + destruct (digits_split (String c r)) as (ds & rest & E & Hd & Hr).
      rewrite E, (digits_app _ _ _ Hd Hr) in H.
      destruct ds as [|d ds]; [discriminate|]. apply of_Z_inj in H.
      exists ws, "", (String d ds), rest.
      split; [by rewrite Hs, E|]. split; [done|]. split; [|done].
      left. split; [done|]. unfold decimal. simpl in *. lia.
  - intros (ws & sign & ds & rest & -> & Hw & Hsign & Hne & Hd & Hr).
    destruct ds as [|d ds]; [done|]. pose proof Hd as Hd'.
    simpl in Hd'. apply andb_true_iff in Hd' as [Hdd _].
    destruct (digit_not_sign _ Hdd) as [Hm Hp].
    pose proof (digits_app (String d ds) rest None Hd Hr) as Hdig.
    destruct Hsign as [[-> ->]|[[-> ->]|[-> ->]]].
    + rewrite trimStart_app; [|done|by apply digit_not_space].
      change ("" +:+ String d ds +:+ rest) with (String d (ds +:+ rest)).
      cbv iota. rewrite Hm, Hp.
      change (String d (ds +:+ rest)) with (String d ds +:+ rest).
      rewrite Hdig. f_equal; unfold decimal; simpl; lia.
    + rewrite trimStart_app; [|done|done].
      change ("+" +:+ String d ds +:+ rest) with (String "+" (String d ds +:+ rest)).
      cbv iota. change (Ascii.eqb "+" "-") with false.
      change (Ascii.eqb "+" "+") with true. cbv iota.
      rewrite Hdig. f_equal; unfold decimal; simpl; lia.
    + rewrite trimStart_app; [|done|done].
      change ("-" +:+ String d ds +:+ rest) with (String "-" (String d ds +:+ rest)).
      cbv iota. change (Ascii.eqb "-" "-") with true. cbv iota.
      rewrite Hdig. f_equal; unfold decimal; simpl; lia.
Qed.

(* ===================================================================== *)
(** ** The query route                                                   *)
(* ===================================================================== *)

Lemma get_handler_run q w :
  get_handler_on q w =
  if db w then
    match server w (commands w) with
    | Some e => (inl (failure "Failed to query sensor data"), sent w)
    | None =>
        (inl (found (find (build_query q) (effective_limit q) (sensor_readings w))),
         sent w)
    end
  else (inl (failure "Failed to query sensor data"), w).
Proof.
  unfold get_handler_on. run_M. destruct (db w); [|done].
  simpl. destruct (server w (commands w)); done.
Qed.

(** [GET /] step by step. *)
Lemma get_run req w :
  sensorDataRouter_get req w =
  match parse querySensorDataSchema (query req) with
  | inr errors => (inl (validation_failed errors), w)
  | inl data => get_handler_on (as_Query (VObj data)) w
  end.
Proof.
  unfold sensorDataRouter_get, route, validateRequest, get_handler. simpl.
  destruct (parse querySensorDataSchema (query req)); done.
Qed.

Lemma querySensorDataSchema_NoDup : NoDup querySensorDataSchema.*1.
Proof. by apply (bool_decide_unpack _). Qed.

Lemma limit_in_schema : ("limit", limit_schema) ∈ querySensorDataSchema.
Proof. unfold querySensorDataSchema, limit_schema. in_list. Qed.

(** The three checks of the limit, on an integer. *)
Lemma limit_number p n :
  _parse (ZodNumber [check_int; check_min 1 true; check_max 1000 true]) p
         (Some (VNum (of_Z n))) =
  with_issues (VNum (of_Z n))
    ((if n <? 1 then [{| code := too_small; path := p |}] else []) ++
     (if 1000 <? n then [{| code := too_big; path := p |}] else [])).
Proof.
  change (_parse (ZodNumber ?cs) p (Some (VNum (of_Z n))))
    with (with_issues (VNum (of_Z n)) (flat_map (number_issue p (of_Z n)) cs)).
  cbn [flat_map number_issue]. rewrite isInteger_of_Z, !ltb_of_Z.
  by rewrite app_nil_r.
Qed.

(** A string through [z.string().transform(f).pipe(out).optional()]. *)
Lemma parse_transform_pipe p s f out :
  _parse (ZodOptional (ZodPipeline (ZodEffects (ZodString []) f) out)) p
         (Some (VStr s)) =
  _parse out p (Some (f (VStr s))).
Proof. simpl. by destruct (_parse out p _). Qed.

Lemma limit_string p s :
  _parse limit_schema p (Some (VStr s)) =
  _parse (ZodNumber [check_int; check_min 1 true; check_max 1000 true]) p
         (Some (VNum (parseInt10 s))).
Proof. apply parse_transform_pipe. Qed.

(** A limit in range is let through as the integer it parses to. *)
Lemma limit_field_ok p s n :
  parseInt10 s = of_Z n -> 1 <= n <= 1000 ->
  _parse limit_schema p (Some (VStr s)) = (OK (Some (VNum (of_Z n))), []).
Proof.
  intros Hs Hn. rewrite limit_string, Hs, limit_number.
  destruct (Z.ltb_spec n 1), (Z.ltb_spec 1000 n); try lia. done.
Qed.

(** Nothing else is let through. *)
Lemma limit_field_inv p v :
  snd (_parse limit_schema p (Some v)) = [] ->
  exists s n, v = VStr s /\ parseInt10 s = of_Z n /\ 1 <= n <= 1000.
Proof.
  destruct v as [| | |s| | | |]; try discriminate.
  rewrite limit_string. destruct (parseInt10_cases s) as [E|[n E]]; rewrite E.
  { discriminate. }
  rewrite limit_number, with_issues_snd. intros H.
  exists s, n. split; [done|split; [done|]].
  destruct (Z.ltb_spec n 1), (Z.ltb_spec 1000 n); try discriminate; lia.
Qed.

(** Every issue [parse] reports was raised by a field of the shape. *)
Lemma parse_issue_origin shape m errors i :
  parse shape (VObj m) = inr errors -> i ∈ errors ->
  exists k s, (k, s) ∈ shape /\ i ∈ snd (_parse s [k] (m !! k)).
Proof.
  unfold parse. intros H Hi.
  assert (errors = flat_map (fun kv => kv.2.2) (object_pairs shape m)) as ->.
  { destruct (flat_map _ _); [destruct (mergeObjectSync _)|]; by inversion H. }
  apply list_elem_of_In, in_flat_map in Hi as ([k r] & Hin & Hi).
  apply list_elem_of_In, elem_of_object_pairs in Hin as (s & Hs & Hr).
  simpl in *. subst r. exists k, s. split; [done|]. by apply list_elem_of_In.
Qed.

(** In a shape that has each key once, a key has one schema. *)
Lemma shape_functional (shape : ZodObject) k s1 s2 :
  NoDup shape.*1 -> (k, s1) ∈ shape -> (k, s2) ∈ shape -> s1 = s2.
Proof.
  induction shape as [|[k' s'] rest IH]; intros Hnd H1 H2.
  - by apply elem_of_nil in H1.
  - rewrite fmap_cons in Hnd. apply NoDup_cons in Hnd as [Hk Hnd].
    apply elem_of_cons in H1 as [H1|H1], H2 as [H2|H2]; simplify_eq; auto.
    + exfalso. apply Hk. apply list_elem_of_fmap. by exists (k', s2).
    + exfalso. apply Hk. apply list_elem_of_fmap. by exists (k', s1).
Qed.

(** The limit of a validated query, as the handler reads it. *)
Lemma validated_limit m data :
  parse querySensorDataSchema (VObj m) = inl data ->
  match m !! "limit" with
  | None => data !! "limit" = None /\ q_limit (as_Query (VObj data)) = None
  | Some v =>
      exists s n, v = VStr s /\ parseInt10 s = of_Z n /\ 1 <= n <= 1000 /\
                  data !! "limit" = Some (VNum (of_Z n)) /\
                  q_limit (as_Query (VObj data)) = Some n
  end.
Proof.
  intros H.
  destruct (parse_inl _ _ _ querySensorDataSchema_NoDup H) as [Hin _].
  destruct (Hin _ _ limit_in_schema) as (x & Hx & <-).
  destruct (m !! "limit") as [v|] eqn:Ev.
  - destruct (limit_field_inv ["limit"] v) as (s & n & -> & Hs & Hn).
    { by rewrite Hx. }
    rewrite (limit_field_ok _ _ _ Hs Hn) in Hx. inversion Hx as [Hd].
    exists s, n. repeat (split; [done|]).
    unfold as_Query. simpl. rewrite <- Hd. simpl. apply to_Z_of_Z.
  - simpl in Hx. inversion Hx as [Hd]. split; [done|].
    unfold as_Query. simpl. by rewrite <- Hd.
Qed.

(** C8, as the code has it.  A present [limit] is validated through
    [parseInt]: the query is accepted only if the value is a string that,
    after any leading white space and an optional sign, starts with a run of
    decimal digits whose signed value lies in 1..1000, and that value becomes
    the limit; what follows the digits is ignored.  Any other value makes
    validation fail with an issue whose path is [limit], and a value of this
    form raises no issue under that path.  When [limit] is absent, the
    validated query has no limit, no issue is raised under that path, and
    the handler falls back on 100. *)
Theorem limit_validation m :
  (forall v, m !! "limit" = Some v ->
     (forall data, parse querySensorDataSchema (VObj m) = inl data ->
        exists s n, v = VStr s /\ numeric_prefix s n /\ 1 <= n <= 1000 /\
                    data !! "limit" = Some (VNum (of_Z n))) /\
     ((forall s n, v = VStr s -> numeric_prefix s n -> 1 <= n <= 1000 -> False) ->
        exists errors i, parse querySensorDataSchema (VObj m) = inr errors /\
                         i ∈ errors /\ path i = ["limit"]) /\
     (forall s n errors i,
        v = VStr s -> numeric_prefix s n -> 1 <= n <= 1000 ->
        parse querySensorDataSchema (VObj m) = inr errors -> i ∈ errors ->
        path i <> ["limit"])) /\
  (m !! "limit" = None ->
     (forall data, parse querySensorDataSchema (VObj m) = inl data ->
        data !! "limit" = None /\ effective_limit (as_Query (VObj data)) = 100) /\
     (forall errors i, parse querySensorDataSchema (VObj m) = inr errors ->
        i ∈ errors -> path i <> ["limit"])).
Proof.
  assert (forall errors i,
            parse querySensorDataSchema (VObj m) = inr errors -> i ∈ errors ->
            path i = ["limit"] ->
            i ∈ snd (_parse limit_schema ["limit"] (m !! "limit"))) as Horigin.
  { intros errors i He Hi Hp.
    destruct (parse_issue_origin _ _ _ _ He Hi) as (k & s & Hs & Hin).
    pose proof (parse_issue_path _ _ _ _ Hin) as Hk. rewrite Hp in Hk.
    inversion Hk; subst k.
    by rewrite (shape_functional _ _ _ _ querySensorDataSchema_NoDup
                  limit_in_schema Hs). }
  split.
  - intros v Hv. split; [|split].
    + intros data Hd. pose proof (validated_limit _ _ Hd) as H.
      rewrite Hv in H. destruct H as (s & n & -> & Hs & Hn & Hl & _).
      exists s, n. by rewrite <- parseInt10_spec.
    + intros Hbad.
      destruct (snd (_parse limit_schema ["limit"] (m !! "limit")))
        as [|i rest] eqn:E.
      * exfalso. rewrite Hv in E.
        apply limit_field_inv in E as (s & n & -> & Hs & Hn).
        apply (Hbad s n); [done| |done]. by apply parseInt10_spec.
      * destruct (parse_reports _ m _ _ i limit_in_schema) as (errors & ? & ?).
        { rewrite E. by left. }
        exists errors, i. split; [done|split; [done|]].
        apply (parse_issue_path limit_schema ["limit"] (m !! "limit")).
        rewrite E. by left.
    + intros s n errors i -> Hs Hn He Hi Hp.
      pose proof (Horigin _ _ He Hi Hp) as Hin. rewrite Hv in Hin.
      apply parseInt10_spec in Hs.
      rewrite (limit_field_ok _ _ _ Hs Hn) in Hin. by apply elem_of_nil in Hin.
  - intros Hv. split.
    + intros data Hd. pose proof (validated_limit _ _ Hd) as H.
      rewrite Hv in H. destruct H as [H1 H2]. split; [done|].
      unfold effective_limit. by rewrite H2.
    + intros errors i He Hi Hp.
      pose proof (Horigin _ _ He Hi Hp) as Hin. rewrite Hv in Hin.
      by apply elem_of_nil in Hin.
Qed.

Lemma limit_validation_witness :
  exists s n, VStr "50" = VStr s /\ numeric_prefix s n /\ 1 <= n <= 1000 /\
              ({[ "limit" := VNum (of_Z 50) ]} : gmap string value) !! "limit"
                = Some (VNum (of_Z n)).
Proof.
  destruct (limit_validation {[ "limit" := VStr "50" ]}) as [H _].
  destruct (H (VStr "50") eq_refl) as [H1 _].
  apply (H1 {[ "limit" := VNum (of_Z 50) ]}). reflexivity.
Defined.

(** C8, the claim as stated fails: ["12abc"] is no integer, and yet the
    query is accepted, with the limit 12. *)
Lemma limit_accepts_trailing_text :
  integer_literal "12abc" = false /\
  parse querySensorDataSchema (object [("limit", VStr "12abc")])
    = inl {[ "limit" := VNum (of_Z 12) ]}.
Proof. split; reflexivity. Qed.

Lemma cursor_limit_length n l :
  n <> 0 -> Z.of_nat (length (cursor_limit n l)) <= Z.abs n.
Proof.
  intros Hn. unfold cursor_limit. destruct (Z.eqb_spec n 0); [done|].
  rewrite length_take. lia.
Qed.

(** C1, as the code has it.  A query that passed validation is read with a
    limit in 1..1000, the parsed value of [limit] when it is present and 100
    when it is absent, and the answer has at most that many rows.  The
    handler behind the validation applies no ceiling of its own: it hands
    the limit it finds to the cursor as it is, so that the number of rows
    is bounded by the absolute value of that limit when it is not 0. *)
Theorem validated_read_is_bounded req w res w' :
  sensorDataRouter_get req w = (inl res, w') -> statusCode res = 200 ->
  (exists data lim,
     res = found data /\
     Z.of_nat (length data) <= lim /\ 1 <= lim <= 1000 /\
     match get (query req) "limit" with
     | None => lim = 100
     | Some v => exists s, v = VStr s /\ parseInt10 s = of_Z lim
     end) /\
  (forall q c,
     effective_limit q = default 100 (q_limit q) /\
     (effective_limit q <> 0 ->
      Z.of_nat (length (find (build_query q) (effective_limit q) c))
        <= Z.abs (effective_limit q))).
Proof.
  intros H Hs. split.
  - rewrite get_run in H.
    destruct (parse querySensorDataSchema (query req)) as [data|errors] eqn:E;
      [|inversion H; subst; discriminate].
    destruct (parse_inl_object _ _ _ E) as [m Hm]. rewrite Hm in *.
    rewrite get_handler_run in H.
    destruct (db w); [|inversion H; subst; discriminate].
    destruct (server w (commands w)); inversion H; subst; [discriminate|].
    pose proof (validated_limit _ _ E) as Hl. simpl.
    set (q := as_Query (VObj data)) in *.
    assert (1 <= effective_limit q <= 1000 /\
            match m !! "limit" with
            | None => effective_limit q = 100
            | Some v => exists s, v = VStr s /\ parseInt10 s = of_Z (effective_limit q)
            end) as [Hr Hm'].
    { unfold effective_limit. destruct (m !! "limit") as [v|].
      - destruct Hl as (s & n & -> & Hp & Hn & _ & ->). simpl. eauto.
      - destruct Hl as [_ ->]. simpl. split; [lia|done]. }
    eexists _, (effective_limit q). split; [reflexivity|].
    split; [|done].
    pose proof (cursor_limit_length (effective_limit q)
                  (merge_sort newer_first
                     (filter (fun d => matches (build_query q) d) (sensor_readings w)))).
    unfold find. lia.
  - intros q c. split; [done|]. intros Hn. by apply cursor_limit_length.
Qed.

Lemma validated_read_is_bounded_witness :
  exists data lim,
    found [] = found data /\ Z.of_nat (length data) <= lim /\ 1 <= lim <= 1000 /\
    match get (object [("limit", VStr "1")]) "limit" with
    | None => lim = 100
    | Some v => exists s, v = VStr s /\ parseInt10 s = of_Z lim
    end.
Proof.
  apply (validated_read_is_bounded
           (request VNull (object [("limit", VStr "1")])) (world_at 0 [])
           (found []) (sent (world_at 0 []))); reflexivity.
Defined.

(** C1, the claim as stated fails: handed the limit 1001, which validation
    would have refused, the handler reads with that limit and answers with
    1001 rows. *)
Lemma handler_does_not_clamp :
  effective_limit query_1001 = 1001 /\
  exists data,
    get_handler_on query_1001 (world_at 0 (log_of 1200))
      = (inl (found data), sent (world_at 0 (log_of 1200))) /\
    length data = 1001%nat.
Proof.
  split; [reflexivity|].
  rewrite get_handler_run. simpl db. cbv iota.
  eexists. split; [reflexivity|]. vm_compute. reflexivity.
Qed.

(** What [z.string().datetime().optional()] lets through. *)
Lemma datetime_field p x :
  snd (_parse (ZodOptional (ZodString [check_datetime])) p (Some x)) = [] ->
  exists s T, x = VStr s /\ Date_parse s = Some T.
Proof.
  destruct x as [| | |s| | | |]; try discriminate.
  simpl. unfold isDatetime, Date_parse. case_bool_decide as H; [|discriminate].
  destruct H as [T HT]. intros _. by exists s, T.
Qed.

(** The time bounds of a validated query denote instants. *)
Lemma validated_times m data s :
  parse querySensorDataSchema (VObj m) = inl data ->
  q_start_time (as_Query (VObj data)) = Some s \/
  q_end_time (as_Query (VObj data)) = Some s ->
  exists T, Date_parse s = Some T.
Proof.
  intros Hp Hq.
  destruct (parse_inl _ _ _ querySensorDataSchema_NoDup Hp) as [Hin _].
  assert (forall k, k = "start_time" \/ k = "end_time" ->
            as_string (data !! k) = Some s -> exists T, Date_parse s = Some T)
    as Hk.
  { intros k Hk Hs.
    destruct (Hin k (ZodOptional (ZodString [check_datetime])))
      as (v & Hv & Hd).
    { destruct Hk as [-> | ->]; unfold querySensorDataSchema; in_list. }
    assert (v = m !! k) as ->.
    { by eapply (parse_plain (ZodOptional (ZodString [check_datetime]))). }
    rewrite Hd in Hs. destruct (m !! k) as [x|] eqn:Ex; [|done].
    destruct (datetime_field [k] x) as (s' & T & -> & HT); [by rewrite Hv|].
    simpl in Hs. inversion Hs; subst. eauto. }
  destruct Hq as [Hq|Hq]; [apply (Hk "start_time")|apply (Hk "end_time")];
    auto.
Qed.

(* ===================================================================== *)
(** ** The filter and the read                                           *)
(* ===================================================================== *)

Lemma present_Some o s : present o = Some s <-> o = Some s /\ s <> "".
Proof.
  unfold present, truthy_string. destruct o as [s'|]; simpl; [|naive_solver].
  destruct (String.eqb_spec s' ""); simpl; naive_solver.
Qed.

Lemma build_query_present q :
  build_query q =
  {| f_wall_id := present (q_wall_id q);
     f_server_timestamp :=
       match present (q_start_time q), present (q_end_time q) with
       | None, None => None
       | a, b => Some {| op_gte := new_Date_of <$> a; op_lte := new_Date_of <$> b |}
       end |}.
Proof.
  unfold build_query, present.
  destruct (truthy_string (q_start_time q)) eqn:E1,
           (truthy_string (q_end_time q)) eqn:E2; simpl; try done;
    destruct (q_start_time q), (q_end_time q); try done.
Qed.

(** What the filter built from a query admits: each parameter that is
    present and not the empty string contributes its condition. *)
Lemma build_query_matches q d :
  matches (build_query q) d = true <->
  (forall s, present (q_wall_id q) = Some s -> wall_of d = Some s) /\
  (forall s, present (q_start_time q) = Some s ->
     exists t, timestamp_of d = Some t /\ new_Date_of s <= t) /\
  (forall s, present (q_end_time q) = Some s ->
     exists t, timestamp_of d = Some t /\ t <= new_Date_of s).
Proof.
  rewrite build_query_present. unfold matches, in_range. simpl.
  destruct (present (q_wall_id q)) as [w|],
           (present (q_start_time q)) as [s1|],
           (present (q_end_time q)) as [s2|],
           (timestamp_of d) as [t|]; simpl;
    rewrite ?andb_true_iff, ?bool_decide_eq_true, ?Z.leb_le; naive_solver.
Qed.

Lemma elem_of_cursor_limit n (l : list Document) d :
  d ∈ cursor_limit n l -> d ∈ l.
Proof.
  unfold cursor_limit. destruct (n =? 0); [done|].
  intros (i & Hi & _)%elem_of_take. by eapply list_elem_of_lookup_2.
Qed.

(** Every row of a read is a stored document that the filter admits. *)
Lemma elem_of_find f n c d :
  d ∈ find f n c -> d ∈ c /\ matches f d = true.
Proof.
  unfold find. intros H%elem_of_cursor_limit.
  rewrite merge_sort_Permutation in H.
  apply list_elem_of_filter in H as [Hm Hin]. split; [done|].
  by apply Is_true_eq_true.
Qed.

(** When the limit does not cut the result short, every admitted document
    is a row of the read. *)
Lemma find_complete f n c d :
  n = 0 \/ Z.of_nat (length (filter (fun d => matches f d) c)) <= Z.abs n ->
  d ∈ c -> matches f d = true -> d ∈ find f n c.
Proof.
  intros Hn Hin Hm. unfold find, cursor_limit.
  assert (d ∈ merge_sort newer_first (filter (fun d => matches f d) c)) as Hd.
  { rewrite merge_sort_Permutation. apply list_elem_of_filter.
    split; [by apply Is_true_eq_left|done]. }
  destruct (Z.eqb_spec n 0) as [|Hne]; [done|].
  rewrite take_ge; [done|].
  rewrite (Permutation_length (merge_sort_Permutation _ _)).
  destruct Hn as [|Hn]; [done|].
  apply Nat2Z.inj_le. rewrite Z2Nat.id by lia. exact Hn.
Qed.

Lemma Date_parse_nonempty s T : Date_parse s = Some T -> s <> "".
Proof. by intros H ->. Qed.

Lemma new_Date_of_parsed s T : Date_parse s = Some T -> new_Date_of s = T.
Proof. unfold new_Date_of. by intros ->. Qed.

(** C4, as the code has it.  The schema lets any string through as
    [wall_id], untouched.  When the [wall_id] of the query is a string other
    than the empty one, the filter carries it and every row of the read has
    exactly that [wall_id]; the empty string is treated by the handler's
    [if (wall_id)] as an absent parameter, and the filter then has no
    condition on [wall_id]. *)
Theorem wall_id_filter q s :
  q_wall_id q = Some s ->
  (forall p, _parse (ZodOptional (ZodString [])) p (Some (VStr s))
             = (OK (Some (VStr s)), [])) /\
  (s <> "" ->
     f_wall_id (build_query q) = Some s /\
     forall n c d, d ∈ find (build_query q) n c ->
                   fields d !! "wall_id" = Some (VStr s)) /\
  (s = "" -> f_wall_id (build_query q) = None).
Proof.
  intros Hq. split; [done|]. split.
  - intros Hs.
    assert (present (q_wall_id q) = Some s) as Hp by by apply present_Some.
    split; [by rewrite build_query_present|].
    intros n c d [_ Hm]%elem_of_find.
    apply build_query_matches in Hm as [Hw _]. specialize (Hw s Hp).
    unfold wall_of in Hw. by repeat case_match; simplify_eq.
  - intros ->. rewrite build_query_present. simpl.
    by rewrite Hq.
Qed.

Lemma wall_id_filter_witness :
  f_wall_id (build_query query_wall_B) = Some "B".
Proof.
  destruct (wall_id_filter query_wall_B "B" eq_refl) as (_ & H & _).
  apply H. discriminate.
Defined.

(** C4, the claim as stated fails: the query [?wall_id=] passes validation
    with the empty string as its [wall_id], and the read is not confined to
    readings whose [wall_id] is the empty string: both readings of wall "A"
    come back. *)
Lemma empty_wall_id_matches_all :
  exists d1 d0,
    sensorDataRouter_get (request VNull (object [("wall_id", VStr "")]))
                         (world_at 0 (log_of 2))
      = (inl (found [d1; d0]), sent (world_at 0 (log_of 2))) /\
    fields d1 !! "wall_id" = Some (VStr "A") /\
    fields d0 !! "wall_id" = Some (VStr "A").
Proof. do 2 eexists. split; [reflexivity|]. split; reflexivity. Qed.

Lemma filter_none_matches f (c : list Document) :
  (forall d, d ∈ c -> matches f d = false) ->
  filter (fun d => matches f d) c = [].
Proof.
  induction c as [|d c IH]; intros H; [done|].
  rewrite filter_cons. rewrite (H d) by left. simpl.
  apply IH. intros d' Hd'. apply H. by right.
Qed.

(** Readings at T1 < T2 < T3 and a query for T2 alone; and an inverted
    range. *)
Example read_at_T2 :
  _id <$> find (build_query (query_at "1970-01-01T00:00:00.001Z"
                                      "1970-01-01T00:00:00.001Z"))
               100 (log_of 3)
  = [1%nat].
Proof. reflexivity. Qed.

Example read_inverted_range :
  sensorDataRouter_get
    (request VNull (object [("start_time", VStr "1970-01-01T00:00:00.002Z");
                            ("end_time", VStr "1970-01-01T00:00:00.000Z")]))
    (world_at 0 (log_of 3))
  = (inl (found []), sent (world_at 0 (log_of 3))).
Proof. reflexivity. Qed.

(* ===================================================================== *)
(** ** The walls summary                                                 *)
(* ===================================================================== *)

Lemma walls_run req w :
  sensorDataRouter_get_walls req w =
  if db w then
    match server w (commands w) with
    | Some e => (inl (failure "Failed to get walls data"), sent w)
    | None => (inl (summary (aggregate_walls (sensor_readings w))), sent w)
    end
  else (inl (failure "Failed to get walls data"), w).
Proof.
  unfold sensorDataRouter_get_walls. run_M. destruct (db w); [|done].
  simpl. destruct (server w (commands w)); done.
Qed.

Lemma first_keys_snoc c d :
  first_keys (c ++ [d]) =
  if decide (wall_of d ∈ first_keys c) then first_keys c
  else first_keys c ++ [wall_of d].
Proof. unfold first_keys. by rewrite foldl_snoc. Qed.

Lemma first_keys_spec c :
  NoDup (first_keys c) /\ forall k, k ∈ first_keys c <-> k ∈ wall_of <$> c.
Proof.
  induction c as [|d c [IHn IHk]] using rev_ind.
  - split; [constructor|]. intros k. simpl. by rewrite !elem_of_nil.
  - rewrite first_keys_snoc, fmap_app. simpl. case_decide as Hd.
    + split; [done|]. intros k. rewrite elem_of_app, list_elem_of_singleton.
      rewrite <- IHk. naive_solver.
    + split.
      * apply NoDup_app. split; [done|]. split; [|apply NoDup_singleton].
        intros k Hk ->%list_elem_of_singleton. done.
      * intros k. rewrite !elem_of_app, list_elem_of_singleton, IHk. done.
Qed.

Lemma readings_of_snoc k c d :
  readings_of k (c ++ [d]) =
  if decide (wall_of d = k) then readings_of k c ++ [d] else readings_of k c.
Proof.
  unfold readings_of. rewrite filter_app, filter_cons, filter_nil.
  case_decide; [done|by rewrite app_nil_r].
Qed.

Lemma readings_of_nil k c : k ∉ wall_of <$> c -> readings_of k c = [].
Proof.
  intros Hk. unfold readings_of. induction c as [|d c IH]; [done|].
  rewrite filter_cons. rewrite fmap_cons, not_elem_of_cons in Hk.
  destruct Hk as [Hne Hk]. rewrite decide_False by done. by apply IH.
Qed.

(** One more document: the group of its wall takes it in, every other
    group stays as it was. *)
Lemma group_of_snoc c d k :
  group_of (c ++ [d]) k =
  if decide (wall_of d = k)
  then {| g_id := k;
          g_latest_reading := acc_max (g_latest_reading (group_of c k)) (timestamp_of d);
          g_device_count := fields d !! "device_count" |}
  else group_of c k.
Proof.
  unfold group_of. rewrite readings_of_snoc. case_decide; [|done].
  f_equal.
  - unfold max_time. rewrite fmap_app. simpl. by rewrite foldl_snoc.
  - by rewrite last_snoc.
Qed.

Lemma accumulate_spec c d ks :
  NoDup ks ->
  accumulate d (group_of c <$> ks) =
  if decide (wall_of d ∈ ks) then group_of (c ++ [d]) <$> ks
  else (group_of c <$> ks) ++
       [{| g_id := wall_of d;
           g_latest_reading := acc_max None (timestamp_of d);
           g_device_count := fields d !! "device_count" |}].
Proof.
  induction ks as [|k ks IH]; intros Hnd.
  - done.
  - apply NoDup_cons in Hnd as [Hk Hnd]. rewrite !fmap_cons.
    cbn [accumulate]. change (g_id (group_of c k)) with k.
    destruct (decide (k = wall_of d)) as [->|Hne].
    + rewrite decide_True by left. f_equal.
      * rewrite group_of_snoc. by rewrite decide_True.
      * apply list_fmap_ext. intros i k' Hk'. rewrite group_of_snoc.
        rewrite decide_False; [done|]. intros <-.
        apply Hk. by eapply list_elem_of_lookup_2.
    + rewrite IH by done. case_decide as Hin.
      * rewrite decide_True by (by right). f_equal.
        rewrite group_of_snoc. by rewrite decide_False.
      * rewrite decide_False; [done|].
        rewrite not_elem_of_cons. split; [done|done].
Qed.

(** The [$group] stage yields, for each wall of the log, the group that wall
    must end up with. *)
Lemma group_stage_spec c : group_stage c = group_of c <$> first_keys c.
Proof.
  induction c as [|d c IH] using rev_ind; [done|].
  unfold group_stage in *. rewrite foldl_snoc, IH.
  rewrite accumulate_spec by apply first_keys_spec.
  rewrite first_keys_snoc. case_decide as Hd; [done|].
  rewrite fmap_app. simpl. f_equal.
  - apply list_fmap_ext. intros i k Hk. rewrite group_of_snoc.
    rewrite decide_False; [done|]. intros <-.
    apply Hd. by eapply list_elem_of_lookup_2.
  - rewrite group_of_snoc, decide_True by done. do 2 f_equal.
    unfold group_of. simpl. rewrite readings_of_nil; [done|].
    by rewrite <- (proj2 (first_keys_spec c)).
Qed.

#[global] Instance time_ge_total : Total time_ge.
Proof. intros [x|] [y|]; simpl; try tauto. lia. Qed.

#[global] Instance latest_first_total : Total latest_first.
Proof. intros w1 w2. apply time_ge_total. Qed.

Lemma time_ge_refl a : time_ge a a.
Proof. destruct a; simpl; [lia|done]. Qed.

Lemma time_ge_acc_max_l a b : time_ge (acc_max a b) a.
Proof. destruct a, b; simpl; try done; lia. Qed.

Lemma time_ge_acc_max_r a b : time_ge (acc_max a b) b.
Proof. destruct a, b; simpl; try done; lia. Qed.

Lemma time_ge_trans a b c : time_ge a b -> time_ge b c -> time_ge a c.
Proof. destruct a, b, c; simpl; try done; lia. Qed.

(** [max_time] is the maximum: it bounds every time of the list and, the
    list not being empty, is one of them. *)
Lemma max_time_spec l :
  (forall x, x ∈ l -> time_ge (max_time l) x) /\
  (l <> [] -> max_time l ∈ l).
Proof.
  unfold max_time. induction l as [|y l [IH1 IH2]] using rev_ind.
  - split; [by intros x ?%elem_of_nil|done].
  - rewrite foldl_snoc. split.
    + intros x [Hx| ->%list_elem_of_singleton]%elem_of_app.
      * eapply time_ge_trans; [apply time_ge_acc_max_l|by apply IH1].
      * apply time_ge_acc_max_r.
    + intros _. apply elem_of_app.
      destruct l as [|z l'] eqn:El.
      * right. simpl. apply list_elem_of_singleton. by destruct y.
      * rewrite <- El in *. assert (l <> []) as Hne by by rewrite El.
        specialize (IH2 Hne).
        destruct (foldl acc_max None l) as [m|] eqn:Em, y as [y|]; simpl.
        -- destruct (Z.max_spec m y) as [[_ ->]|[_ ->]];
             [right; by apply list_elem_of_singleton|by left].
        -- by left.
        -- right. by apply list_elem_of_singleton.
        -- by left.
Qed.

Lemma elem_of_aggregate_walls c x :
  x ∈ aggregate_walls c <->
  exists k, k ∈ wall_of <$> c /\ x = project_stage (group_of c k).
Proof.
  unfold aggregate_walls. rewrite merge_sort_Permutation, group_stage_spec.
  rewrite list_elem_of_fmap. split.
  - intros (g & -> & (k & -> & Hk)%list_elem_of_fmap).
    exists k. split; [|done]. by apply first_keys_spec.
  - intros (k & Hk & ->). exists (group_of c k). split; [done|].
    apply list_elem_of_fmap. exists k. split; [done|]. by apply first_keys_spec.
Qed.

Lemma wall_ids_of_aggregate c : wall_id <$> aggregate_walls c ≡ₚ first_keys c.
Proof.
  unfold aggregate_walls. rewrite merge_sort_Permutation, group_stage_spec.
  rewrite <- !list_fmap_compose.
  rewrite (list_fmap_ext _ id (first_keys c)); [by rewrite list_fmap_id|done].
Qed.

(** C3. The summary has one row for each [wall_id] of the log and no
    other row; the [latest_reading] of a row is the maximum
    [server_timestamp] over the readings of its wall (it is the stamp of one
    of them and no reading of the wall has a later one); its [device_count]
    is that of the reading of the wall that was inserted last, whichever
    reading holds the maximum; and the rows are in descending order of
    [latest_reading].  The log is left as it was. *)
Theorem walls_summary_spec req w res w' :
  sensorDataRouter_get_walls req w = (inl res, w') -> statusCode res = 200 ->
  exists walls,
    res = summary walls /\ sensor_readings w' = sensor_readings w /\
    NoDup (wall_id <$> walls) /\
    (forall k, k ∈ wall_id <$> walls <-> k ∈ wall_of <$> sensor_readings w) /\
    (forall x, x ∈ walls ->
       (exists d, d ∈ readings_of (wall_id x) (sensor_readings w) /\
                  latest_reading x = timestamp_of d) /\
       (forall d, d ∈ readings_of (wall_id x) (sensor_readings w) ->
                  time_ge (latest_reading x) (timestamp_of d)) /\
       (exists d, last (readings_of (wall_id x) (sensor_readings w)) = Some d /\
                  device_count x = fields d !! "device_count")) /\
    Sorted latest_first walls.
Proof.
  rewrite walls_run. intros H Hs.
  destruct (db w); [|inversion H; subst; discriminate].
  destruct (server w (commands w)); inversion H; subst; [discriminate|].
  clear H Hs. set (c := sensor_readings w).
  exists (aggregate_walls c). split; [done|]. split; [done|].
  split; [|split; [|split]].
  - rewrite wall_ids_of_aggregate. apply first_keys_spec.
  - intros k. rewrite wall_ids_of_aggregate. apply first_keys_spec.
  - intros x (k & Hk & ->)%elem_of_aggregate_walls. simpl.
    assert (readings_of k c <> []) as Hne.
    { apply list_elem_of_fmap in Hk as (d & -> & Hd).
      intros Hnil. assert (d ∈ readings_of (wall_of d) c) as Hin.
      { apply list_elem_of_filter. done. }
      rewrite Hnil in Hin. by apply elem_of_nil in Hin. }
    destruct (max_time_spec (timestamp_of <$> readings_of k c)) as [Hmax Hin].
    split; [|split].
    + assert (timestamp_of <$> readings_of k c <> []) as Hne'
        by (by intros ?%fmap_nil_inv).
      apply Hin, list_elem_of_fmap in Hne' as (d & Hd & ?). by exists d.
    + intros d Hd. apply Hmax. apply list_elem_of_fmap. by exists d.
    + destruct (last (readings_of k c)) as [d|] eqn:El.
      * by exists d.
      * by apply last_None in El.
  - unfold aggregate_walls. apply Sorted_merge_sort. apply _.
Qed.

Example walls_of_log_walls :
  aggregate_walls log_walls =
  [ {| wall_id := Some "B"; latest_reading := Some 6000;
       device_count := Some (VNum (of_Z 7)) |};
    {| wall_id := Some "A"; latest_reading := Some 5000;
       device_count := Some (VNum (of_Z 5)) |} ].
Proof. reflexivity. Qed.

Lemma walls_summary_spec_witness :
  exists walls,
    summary (aggregate_walls log_walls) = summary walls /\
    NoDup (wall_id <$> walls) /\ Sorted latest_first walls.
Proof.
  destruct (walls_summary_spec (request VNull VNull) (world_at 0 log_walls)
              (summary (aggregate_walls log_walls))
              (sent (world_at 0 log_walls)))
    as (walls & H1 & _ & H2 & _ & _ & H3).
  - reflexivity.
  - reflexivity.
  - exists walls. split; [exact H1|]. split; [exact H2|exact H3].
Defined.

(* ===================================================================== *)
(** ** Failure responses                                                 *)
(* ===================================================================== *)

Lemma health_run req w :
  healthRouter_get req w =
  if db w then
    match server w (commands w) with
    | Some e =>
        (inl (unhealthy (clock w (clock_reads w)) (error_text e)), tick (sent w))
    | None =>
        (inl (healthy (clock w (clock_reads w)) (uptime w)), tick (sent w))
    end
  else (inl (unhealthy (clock w (clock_reads w)) not_initialized), tick w).
Proof.
  unfold healthRouter_get. run_M. destruct (db w); [|done].
  simpl. destruct (server w (commands w)); done.
Qed.



(* ===================================================================== *)
(** ** What the validator accepts                                        *)
(* ===================================================================== *)

(** [parse] succeeds exactly when no field of the shape raises an issue. *)
Lemma parse_inl_iff shape m :
  NoDup shape.*1 ->
  (exists out, parse shape (VObj m) = inl out) <-> no_issue shape m.
Proof.
  intros Hnd. split.
  - intros [out H] k s Hin.
    destruct (parse_inl _ _ _ Hnd H) as [Hf _].
    destruct (Hf _ _ Hin) as (v & -> & _). done.
  - apply parse_succeeds.
Qed.

(** A [parse] that fails has something to report. *)
Lemma parse_inr_nonempty shape data errors :
  parse shape data = inr errors -> errors <> [].
Proof.
  destruct data as [| | | | | | |m]; simpl; try (intros [= <-]; done).
  unfold parse. destruct (flat_map _ _) as [|i iss] eqn:E; [|by intros [= <-]].
  destruct (mergeObjectSync _) as [o|] eqn:Em; [done|]. intros _. exfalso.
  assert (forall pairs,
            flat_map (fun kv : string * (ParseReturn * list ZodIssue) => kv.2.2)
                     pairs = [] ->
            (forall kv, kv ∈ pairs -> exists v, kv.2.1 = OK v) ->
            mergeObjectSync pairs <> None) as Hm.
  { induction pairs as [|[k [r iss]] rest IH]; simpl; [done|].
    intros [-> Hrest]%app_eq_nil Hok.
    destruct (Hok (k, (r, [])) ltac:(left)) as [v Hv]. simpl in Hv. subst r.
    destruct (mergeObjectSync rest) eqn:Er; [done|].
    exfalso. apply IH; [done| |done]. intros kv Hkv. apply Hok. by right. }
  apply (Hm _ E); [|done].
  intros [k [r iss]] (s & Hs & Hr)%elem_of_object_pairs. simpl in *.
  assert (iss = []) as ->.
  { destruct iss as [|i iss]; [done|]. exfalso.
    assert (In i (flat_map (fun kv => kv.2.2) (object_pairs shape m))) as Hi.
    { apply in_flat_map. exists (k, (r, i :: iss)). split; [|by left].
      apply list_elem_of_In, elem_of_object_pairs. by exists s. }
    rewrite E in Hi. destruct Hi. }
  symmetry in Hr. by apply parse_clean_OK in Hr.
Qed.

Lemma required_string_field p data :
  snd (_parse (ZodString [check_min_length 1]) p data) = [] <->
  exists s, data = Some (VStr s) /\ s <> "".
Proof.
  split; [apply nonempty_string_field|].
  intros (s & -> & Hs). simpl. by destruct s.
Qed.

Lemma count_field_iff p data :
  snd (_parse (ZodNumber [check_int; check_min 0 true]) p data) = [] <->
  exists n, data = Some (VNum n) /\ isInteger n = true /\ ltb n (of_Z 0) = false.
Proof.
  split; [apply count_field|].
  intros (n & -> & Hi & Hn). destruct n as [q| | |]; try discriminate.
  simpl. rewrite with_issues_snd. simpl. simpl in Hi, Hn. by rewrite Hi, Hn.
Qed.

Lemma required_positive_field p data :
  snd (_parse (ZodNumber [check_int; check_min 0 false]) p data) = [] <->
  exists n, data = Some (VNum n) /\ isInteger n = true /\ ltb (of_Z 0) n = true.
Proof.
  destruct data as [v|].
  - rewrite positive_int_field. naive_solver.
  - simpl. naive_solver.
Qed.

Lemma optional_field p inner data :
  snd (_parse (ZodOptional inner) p data) = [] <->
  forall v, data = Some v -> snd (_parse inner p (Some v)) = [].
Proof. destruct data as [v|]; simpl; naive_solver. Qed.

Lemma string_field p v :
  snd (_parse (ZodString []) p (Some v)) = [] <-> exists s, v = VStr s.
Proof. destruct v; simpl; naive_solver. Qed.

Lemma number_field p v :
  snd (_parse (ZodNumber []) p (Some v)) = [] <->
  exists n, v = VNum n /\ n <> NaN.
Proof. destruct v as [| |[]| | | | |]; simpl; naive_solver. Qed.

Lemma datetime_string_field p v :
  snd (_parse (ZodString [check_datetime]) p (Some v)) = [] <->
  exists s, v = VStr s /\ isDatetime s = true.
Proof.
  destruct v as [| | |s| | | |]; simpl;
    try (split; [discriminate|by intros (? & ? & _)]).
  destruct (isDatetime s) eqn:E; simpl.
  - split; [by exists s|done].
  - split; [discriminate|]. intros (s' & [= <-] & H). congruence.
Qed.

Lemma limit_field_iff p v :
  snd (_parse limit_schema p (Some v)) = [] <->
  exists s n, v = VStr s /\ parseInt10 s = of_Z n /\ 1 <= n <= 1000.
Proof.
  split; [apply limit_field_inv|].
  intros (s & n & -> & Hs & Hn). by rewrite (limit_field_ok _ _ _ Hs Hn).
Qed.

Lemma no_issue_reading m : no_issue sensorDataSchema m <-> valid_reading m.
Proof.
  unfold no_issue, valid_reading.
  rewrite <- required_string_field, <- count_field_iff,
    <- required_positive_field.
  assert (forall k, (forall v, m !! k = Some v -> exists s, v = VStr s) <->
                    snd (_parse (ZodOptional (ZodString [])) [k] (m !! k)) = [])
    as Hstr.
  { intros k. rewrite optional_field. by setoid_rewrite string_field. }
  assert (forall k, (forall v, m !! k = Some v -> exists n, v = VNum n /\ n <> NaN) <->
                    snd (_parse (ZodOptional (ZodNumber [])) [k] (m !! k)) = [])
    as Hnum.
  { intros k. rewrite optional_field. by setoid_rewrite number_field. }
  assert ((forall v, m !! "received_at" = Some v ->
             exists n, v = VNum n /\ isInteger n = true /\ ltb (of_Z 0) n = true) <->
          snd (_parse (ZodOptional (ZodNumber [check_int; check_min 0 false]))
                      ["received_at"] (m !! "received_at")) = []) as Hrec.
  { rewrite optional_field. by setoid_rewrite positive_int_field. }
  rewrite (Hstr "gateway_id"), (Hnum "rssi"), (Hnum "snr"), Hrec.
  unfold sensorDataSchema. split.
  - intros H. repeat split; apply H; in_list.
  - intros (H1 & H2 & H3 & H4 & H5 & H6 & H7) k s Hin.
    rewrite !elem_of_cons, elem_of_nil in Hin.
    repeat destruct Hin as [Hin|Hin]; try done; by inversion Hin; subst.
Qed.

Lemma no_issue_query m : no_issue querySensorDataSchema m <-> valid_query m.
Proof.
  unfold no_issue, valid_query.
  assert ((forall v, m !! "wall_id" = Some v -> exists s, v = VStr s) <->
          snd (_parse (ZodOptional (ZodString [])) ["wall_id"] (m !! "wall_id")) = [])
    as Hw.
  { rewrite optional_field. by setoid_rewrite string_field. }
  assert (forall k, (forall v, m !! k = Some v ->
                       exists s, v = VStr s /\ isDatetime s = true) <->
                    snd (_parse (ZodOptional (ZodString [check_datetime])) [k]
                                (m !! k)) = []) as Ht.
  { intros k. rewrite optional_field. by setoid_rewrite datetime_string_field. }
  assert ((forall v, m !! "limit" = Some v ->
             exists s n, v = VStr s /\ parseInt10 s = of_Z n /\ 1 <= n <= 1000) <->
          snd (_parse limit_schema ["limit"] (m !! "limit")) = []) as Hl.
  { destruct (m !! "limit") as [v|] eqn:E.
    - rewrite limit_field_iff. naive_solver.
    - simpl. naive_solver. }
  rewrite Hw, (Ht "start_time"), (Ht "end_time"), Hl.
  unfold querySensorDataSchema, limit_schema. split.
  - intros H. repeat split; apply H; in_list.
  - intros (H1 & H2 & H3 & H4) k s Hin.
    rewrite !elem_of_cons, elem_of_nil in Hin.
    repeat destruct Hin as [Hin|Hin]; try done; by inversion Hin; subst.
Qed.

(** X1. With the database connected and the insert going through, a
    reading is answered 201 exactly when the three required fields are
    present and in range and every optional field that is present is well
    typed; any other object is answered 400 and leaves the world as it
    was. *)
Theorem reading_accepted_iff req w m :
  body req = VObj m -> db w = true -> server w (commands w) = None ->
  (valid_reading m <->
   fst (sensorDataRouter_post req w) = inl (created (next_id w))) /\
  (~ valid_reading m <->
   exists errors,
     sensorDataRouter_post req w = (inl (validation_failed errors), w)).
Proof.
  intros Hb Hdb Hsrv. rewrite post_run, Hb, Hdb, Hsrv.
  rewrite <- no_issue_reading, <- (parse_inl_iff _ _ sensorDataSchema_NoDup).
  destruct (parse sensorDataSchema (VObj m)) as [data|errors]; simpl.
  - split; split.
    + done.
    + intros _. by eexists.
    + intros Hn. exfalso. apply Hn. by eexists.
    + intros (errors & H). unfold created, validation_failed in H.
      inversion H.
  - split; split.
    + by intros [? [=]].
    + intros H. unfold created, validation_failed in H. inversion H.
    + intros _. by eexists.
    + by intros _ [? [=]].
Qed.

Lemma reading_accepted_iff_witness :
  fst (sensorDataRouter_post (request (VObj reading_min) VNull) (world_at 1000 []))
    = inl (created 0).
Proof.
  apply (reading_accepted_iff (request (VObj reading_min) VNull)
           (world_at 1000 []) reading_min eq_refl eq_refl eq_refl).
  unfold valid_reading, reading_min.
  split; [by exists "B"|].
  split; [by exists (of_Z 7)|].
  split; [by exists (of_Z 1704067200000)|].
  repeat split; intros v Hv; vm_compute in Hv; discriminate.
Defined.

Lemma parse_inr_issues shape m errors :
  parse shape (VObj m) = inr errors ->
  errors = flat_map (fun kv => kv.2.2) (object_pairs shape m).
Proof.
  unfold parse.
  destruct (flat_map _ _); [destruct (mergeObjectSync _)|]; by inversion 1.
Qed.

(** X2. When [validateRequest] answers instead of handing on, the answer is
    the 400 with a list of issues that is never empty.  For an object, the
    list holds exactly the issues that the fields of the schema raise, all of
    them and not only the first, each under the path of its field; for
    anything that is no object it is the one issue of the wrong type, under
    the empty path. *)
Theorem rejection_reports_every_issue schema target req res :
  validateRequest schema target req = inl res ->
  exists errors,
    res = validation_failed errors /\ errors <> [] /\
    match req_get req target with
    | VObj m =>
        (forall i, i ∈ errors <->
           exists k s, (k, s) ∈ schema /\ i ∈ snd (_parse s [k] (m !! k))) /\
        (forall i, i ∈ errors -> exists k, k ∈ schema.*1 /\ path i = [k])
    | _ => errors = [{| code := invalid_type; path := [] |}]
    end.
Proof.
  unfold validateRequest. simpl.
  destruct (parse schema (req_get req target)) as [data|errors] eqn:E;
    [done|].
  intros [= <-]. exists errors. split; [done|].
  split; [by eapply parse_inr_nonempty|].
  destruct (req_get req target) as [| | | | | | |m]; try by inversion E.
  assert (forall i, i ∈ errors <->
            exists k s, (k, s) ∈ schema /\ i ∈ snd (_parse s [k] (m !! k)))
    as Hiff.
  { intros i. split.
    - by apply parse_issue_origin.
    - intros (k & s & Hs & Hi).
      destruct (parse_reports _ m _ _ _ Hs Hi) as (errors' & He & Hin).
      congruence. }
  split; [done|].
  intros i (k & s & Hs & Hi)%Hiff. exists k. split.
  - apply list_elem_of_fmap. by exists (k, s).
  - by eapply parse_issue_path.
Qed.

Lemma rejection_reports_every_issue_witness :
  exists errors,
    validation_failed
      [{| code := too_small; path := ["wall_id"] |};
       {| code := too_small; path := ["device_count"] |};
       {| code := too_small; path := ["timestamp"] |};
       {| code := invalid_type; path := ["received_at"] |}]
    = validation_failed errors /\ errors <> [].
Proof.
  destruct (rejection_reports_every_issue sensorDataSchema target_body
              (request (VObj reading_bad) VNull)
              (validation_failed
                 [{| code := too_small; path := ["wall_id"] |};
                  {| code := too_small; path := ["device_count"] |};
                  {| code := too_small; path := ["timestamp"] |};
                  {| code := invalid_type; path := ["received_at"] |}]))
    as (errors & H1 & H2 & _).
  - reflexivity.
  - by exists errors.
Defined.

Lemma no_issue_agree shape m1 m2 :
  (forall k, k ∈ shape.*1 -> m1 !! k = m2 !! k) ->
  no_issue shape m1 -> no_issue shape m2.
Proof.
  intros Heq H k s Hin. rewrite <- Heq; [by apply H|].
  apply list_elem_of_fmap. by exists (k, s).
Qed.

(** X3. Validation of a reading is idempotent: what [validateRequest] hands
    on for a body passes [validateRequest] again, unchanged. *)
Theorem validated_body_revalidates req req' :
  validateRequest sensorDataSchema target_body req = inr req' ->
  validateRequest sensorDataSchema target_body req' = inr req'.
Proof.
  unfold validateRequest, req_get, req_set.
  destruct (parse sensorDataSchema (body req)) as [data|errors] eqn:E;
    [|done].
  intros [= <-]. cbn [body query params].
  destruct (parse_inl_object _ _ _ E) as [m Hm]. rewrite Hm in E.
  assert (no_issue sensorDataSchema data) as Hok.
  { apply (no_issue_agree _ m).
    - intros k Hk. rewrite (validated_reading _ _ k E). by rewrite decide_True.
    - apply (parse_inl_iff _ _ sensorDataSchema_NoDup). eauto. }
  apply (parse_inl_iff _ _ sensorDataSchema_NoDup) in Hok as [data' E'].
  rewrite E'. do 3 f_equal. apply map_eq. intros k.
  rewrite (validated_reading _ _ k E'), (validated_reading _ _ k E).
  by case_decide.
Qed.

Lemma validated_body_revalidates_witness :
  exists req',
    validateRequest sensorDataSchema target_body (request (VObj reading_A) VNull)
      = inr req' /\
    validateRequest sensorDataSchema target_body req' = inr req'.
Proof.
  eexists. split; [reflexivity|].
  apply (validated_body_revalidates (request (VObj reading_A) VNull)).
  reflexivity.
Defined.

(** The validated query, key by key: the three string parameters as they
    came, the limit as the integer it parses to, and nothing else. *)
Lemma validated_query_lookup m data :
  parse querySensorDataSchema (VObj m) = inl data ->
  (forall k, k ∈ ["wall_id"; "start_time"; "end_time"] -> data !! k = m !! k) /\
  data !! "limit" = (fun n => VNum (of_Z n)) <$> limit_of m /\
  as_integer (data !! "limit") = limit_of m /\
  (forall k, k ∉ querySensorDataSchema.*1 -> data !! k = None).
Proof.
  intros H.
  destruct (parse_inl _ _ _ querySensorDataSchema_NoDup H) as [Hin Hout].
  split; [|split; [|split]]; [| | |done].
  - intros k Hk.
    assert (exists s, (k, s) ∈ querySensorDataSchema /\ plain s = true)
      as (s & Hs & Hp).
    { rewrite !elem_of_cons, elem_of_nil in Hk.
      destruct Hk as [->|[->|[->|[]]]]; eexists;
        (split; [unfold querySensorDataSchema; in_list|done]). }
    destruct (Hin _ _ Hs) as (v & Hv & ->). by eapply parse_plain.
  - pose proof (validated_limit _ _ H) as Hl. unfold limit_of.
    destruct (m !! "limit") as [v|].
    + destruct Hl as (s & n & -> & Hs & _ & -> & _).
      by rewrite Hs, to_Z_of_Z.
    + by destruct Hl as [-> _].
  - pose proof (validated_limit _ _ H) as Hl. unfold limit_of.
    destruct (m !! "limit") as [v|].
    + destruct Hl as (s & n & -> & Hs & _ & -> & _).
      rewrite Hs. simpl. done.
    + by destruct Hl as [-> _].
Qed.

(** X4. A query is handed to the handler exactly when each of its four
    parameters is absent or well formed, and then as the record of the
    three strings as they came and of the limit as [parseInt] reads it; keys
    the schema does not know play no part.  Any other query is answered 400
    and leaves the world as it was. *)
Theorem query_accepted_iff req w m :
  query req = VObj m ->
  (valid_query m ->
   sensorDataRouter_get req w = get_handler_on (normalized m) w) /\
  (~ valid_query m ->
   exists errors,
     sensorDataRouter_get req w = (inl (validation_failed errors), w)).
Proof.
  intros Hq. rewrite get_run, Hq.
  rewrite <- no_issue_query,
    <- (parse_inl_iff _ _ querySensorDataSchema_NoDup).
  destruct (parse querySensorDataSchema (VObj m)) as [data|errors] eqn:E.
  - split; [|intros Hn; exfalso; apply Hn; by eexists].
    intros _. f_equal.
    destruct (validated_query_lookup _ _ E) as (Hs & _ & Hl & _).
    unfold as_Query, normalized. simpl.
    rewrite !Hs by in_list. by rewrite Hl.
  - split; [by intros [? [=]]|]. intros _. by eexists.
Qed.

Lemma query_accepted_iff_witness :
  sensorDataRouter_get
    (request VNull (object [("wall_id", VStr "A"); ("limit", VStr "5 rows");
                            ("page", VStr "2")]))
    (world_at 0 [])
  = get_handler_on {| q_wall_id := Some "A"; q_start_time := None;
                      q_end_time := None; q_limit := Some 5 |}
                   (world_at 0 []).
Proof.
  apply (query_accepted_iff
           (request VNull (object [("wall_id", VStr "A"); ("limit", VStr "5 rows");
                                   ("page", VStr "2")]))
           (world_at 0 [])
           (list_to_map [("wall_id", VStr "A"); ("limit", VStr "5 rows");
                         ("page", VStr "2")]) eq_refl).
  repeat split; intros v Hv; vm_compute in Hv; inversion Hv; subst.
  - by exists "A".
  - exists "5 rows", 5. repeat split; (reflexivity || lia).
Defined.

(** X5. The query schema is not idempotent: what [validateRequest] hands on
    for a query passes [validateRequest] again, unchanged, exactly when the
    query had no [limit]; a validated limit is a number, which the schema,
    expecting a string, refuses. *)
Theorem validated_query_revalidates_iff req req' :
  validateRequest querySensorDataSchema target_query req = inr req' ->
  (get (query req) "limit" = None <->
   validateRequest querySensorDataSchema target_query req' = inr req') /\
  (is_Some (get (query req) "limit") <->
   exists res,
     validateRequest querySensorDataSchema target_query req' = inl res).
Proof.
  unfold validateRequest, req_get, req_set.
  destruct (parse querySensorDataSchema (query req)) as [data|errors] eqn:E;
    [|done].
  intros [= <-]. cbn [body query params].
  destruct (parse_inl_object _ _ _ E) as [m Hm]. rewrite Hm in *.
  cbn [get].
  destruct (validated_query_lookup _ _ E) as (Hs & Hl & _ & Hout).
  pose proof (validated_limit _ _ E) as Hlim.
  destruct (m !! "limit") as [v|] eqn:Ev.
  - destruct Hlim as (s & n & -> & Hp & Hn & Hd & _).
    destruct (parse_reports querySensorDataSchema data "limit" limit_schema
                {| code := invalid_type; path := ["limit"] |} limit_in_schema)
      as (errors & -> & _).
    { rewrite Hd. simpl. by left. }
    split; split.
    + done.
    + by intros [=].
    + intros _. by eexists.
    + intros _. by eexists.
  - destruct Hlim as [Hd _].
    assert (no_issue querySensorDataSchema data) as Hok.
    { apply no_issue_query.
      assert (valid_query m) as (H1 & H2 & H3 & _).
      { apply no_issue_query, (parse_inl_iff _ _ querySensorDataSchema_NoDup).
        eauto. }
      unfold valid_query. rewrite !Hs by in_list. rewrite Hd.
      repeat split; try done. }
    apply (parse_inl_iff _ _ querySensorDataSchema_NoDup) in Hok as [data' E'].
    rewrite E'.
    assert (data' = data) as ->.
    { apply map_eq. intros k.
      destruct (validated_query_lookup _ _ E') as (Hs' & Hl' & _ & Hout').
      destruct (decide (k ∈ querySensorDataSchema.*1)) as [Hk|Hk].
      - change (querySensorDataSchema.*1)
          with ["wall_id"; "start_time"; "end_time"; "limit"] in Hk.
        rewrite !elem_of_cons, elem_of_nil in Hk.
        destruct Hk as [->|[->|[->|[->|[]]]]];
          try (apply Hs'; in_list).
        rewrite Hl', Hd. unfold limit_of. by rewrite Hd.
      - by rewrite Hout, Hout'. }
    split; split.
    + done.
    + done.
    + by intros [? [=]].
    + by intros [? [=]].
Qed.

Lemma validated_query_revalidates_iff_witness :
  exists res,
    validateRequest querySensorDataSchema target_query
      (request VNull (object [("limit", VNum (of_Z 5))])) = inl res.
Proof.
  destruct (validated_query_revalidates_iff
              (request VNull (object [("limit", VStr "5")]))
              (request VNull (object [("limit", VNum (of_Z 5))])) eq_refl)
    as [_ H].
  apply H. by eexists.
Defined.

(* ===================================================================== *)
(** ** The log across requests                                           *)
(* ===================================================================== *)

(** What [POST /] does to the world, case by case. *)
Lemma post_cases req w :
  exists res w',
    sensorDataRouter_post req w = (inl res, w') /\
    ((statusCode res = 400 /\ w' = w) \/
     (statusCode res = 500 /\ db w = false /\ w' = w) \/
     (statusCode res = 500 /\ db w = true /\
      is_Some (server w (commands w)) /\
      sensor_readings w' = sensor_readings w /\
      commands w' = S (commands w)) \/
     (statusCode res = 201 /\ db w = true /\ server w (commands w) = None /\
      commands w' = S (commands w) /\
      exists doc, sensor_readings w' = sensor_readings w ++ [doc])).
Proof.
  rewrite post_run.
  destruct (parse sensorDataSchema (body req)); [|by eauto 10].
  destruct (db w); [|by eauto 10].
  destruct (server w (commands w)) eqn:E.
  - do 2 eexists. split; [done|]. right. right. left. by eauto 10.
  - do 2 eexists. split; [done|]. right. right. right. by eauto 10.
Qed.

(** What a read does to the world: nothing but count its command. *)
Lemma get_cases req w :
  exists res w',
    sensorDataRouter_get req w = (inl res, w') /\
    ((statusCode res = 400 /\ w' = w) \/
     (statusCode res = 500 /\ db w = false /\ w' = w) \/
     (statusCode res = 500 /\ db w = true /\
      is_Some (server w (commands w)) /\ w' = sent w) \/
     (statusCode res = 200 /\ db w = true /\ server w (commands w) = None /\
      w' = sent w)).
Proof.
  rewrite get_run.
  destruct (parse querySensorDataSchema (query req)); [|by eauto 10].
  rewrite get_handler_run.
  destruct (db w); [|by eauto 10].
  destruct (server w (commands w)) eqn:E.
  - do 2 eexists. split; [done|]. right. right. left. by eauto 10.
  - do 2 eexists. split; [done|]. right. right. right. by eauto 10.
Qed.

Lemma walls_cases req w :
  exists res w',
    sensorDataRouter_get_walls req w = (inl res, w') /\
    ((statusCode res = 500 /\ db w = false /\ w' = w) \/
     (statusCode res = 500 /\ db w = true /\
      is_Some (server w (commands w)) /\ w' = sent w) \/
     (statusCode res = 200 /\ db w = true /\ server w (commands w) = None /\
      w' = sent w)).
Proof.
  rewrite walls_run.
  destruct (db w); [|by eauto 10].
  destruct (server w (commands w)) eqn:E.
  - do 2 eexists. split; [done|]. right. left. by eauto 10.
  - do 2 eexists. split; [done|]. right. right. by eauto 10.
Qed.

Lemma health_cases req w :
  exists res w',
    healthRouter_get req w = (inl res, w') /\
    ((statusCode res = 503 /\ db w = false /\ w' = tick w) \/
     (statusCode res = 503 /\ db w = true /\
      is_Some (server w (commands w)) /\ w' = tick (sent w)) \/
     (statusCode res = 200 /\ db w = true /\ server w (commands w) = None /\
      w' = tick (sent w))).
Proof.
  rewrite health_run.
  destruct (db w); [|by eauto 10].
  destruct (server w (commands w)) eqn:E.
  - do 2 eexists. split; [done|]. right. left. by eauto 10.
  - do 2 eexists. split; [done|]. right. right. by eauto 10.
Qed.

(** X6. The log is only ever appended to.  [POST /] adds exactly one
    document at the end when it answers 201 and leaves the log as it was
    whenever it answers anything else; the two reads and the health probe
    never change the log. *)
Theorem log_is_append_only req w :
  (exists res w',
     sensorDataRouter_post req w = (inl res, w') /\
     ((statusCode res = 201 /\
       exists doc, sensor_readings w' = sensor_readings w ++ [doc]) \/
      (statusCode res <> 201 /\ sensor_readings w' = sensor_readings w))) /\
  sensor_readings (snd (sensorDataRouter_get req w)) = sensor_readings w /\
  sensor_readings (snd (sensorDataRouter_get_walls req w)) = sensor_readings w /\
  sensor_readings (snd (healthRouter_get req w)) = sensor_readings w.
Proof.
  split; [|split; [|split]].
  - destruct (post_cases req w)
      as (res & w' & H & [[Hs Hw]|[(Hs & _ & Hw)|[(Hs & _ & _ & Hl & _)|(Hs & _ & _ & _ & Hl)]]]);
      exists res, w'; (split; [done|]).
    + right. rewrite Hs, Hw. done.
    + right. rewrite Hs, Hw. done.
    + right. rewrite Hs. done.
    + left. done.
  - destruct (get_cases req w)
      as (res & w' & -> & [[_ ->]|[(_ & _ & ->)|[(_ & _ & _ & ->)|(_ & _ & _ & ->)]]]);
      done.
  - destruct (walls_cases req w)
      as (res & w' & -> & [(_ & _ & ->)|[(_ & _ & _ & ->)|(_ & _ & _ & ->)]]);
      done.
  - destruct (health_cases req w)
      as (res & w' & -> & [(_ & _ & ->)|[(_ & _ & _ & ->)|(_ & _ & _ & ->)]]);
      done.
Qed.

(** X7. A request that validation refuses never reaches the handler: after
    a 400 from [POST /] or [GET /] the world is the world before, with no
    reading of the clock and no command sent.  No route sends more than
    one command for a request, and an answer of 200 or 201 means that
    exactly one was sent. *)
Theorem rejected_request_touches_nothing req w r res w' :
  r ∈ routes -> r req w = (inl res, w') ->
  (statusCode res = 400 -> w' = w) /\
  (commands w' = commands w \/ commands w' = S (commands w)) /\
  (statusCode res = 200 \/ statusCode res = 201 ->
   commands w' = S (commands w)).
Proof.
  unfold routes. rewrite !elem_of_cons, elem_of_nil.
  intros [->|[->|[->|[->|[]]]]] H.
  - destruct (post_cases req w)
      as (res0 & w0 & H0 & [[Hs ->]|[(Hs & _ & ->)|[(Hs & _ & _ & _ & Hc)|(Hs & _ & _ & Hc & _)]]]);
      rewrite H0 in H; inversion H; subst; rewrite Hs;
      repeat split; try done; try (by intros [|]); auto.
  - destruct (get_cases req w)
      as (res0 & w0 & H0 & [[Hs ->]|[(Hs & _ & ->)|[(Hs & _ & _ & ->)|(Hs & _ & _ & ->)]]]);
      rewrite H0 in H; inversion H; subst; rewrite Hs;
      repeat split; try done; try (by intros [|]); auto.
  - destruct (walls_cases req w)
      as (res0 & w0 & H0 & [(Hs & _ & ->)|[(Hs & _ & _ & ->)|(Hs & _ & _ & ->)]]);
      rewrite H0 in H; inversion H; subst; rewrite Hs;
      repeat split; try done; try (by intros [|]); auto.
  - destruct (health_cases req w)
      as (res0 & w0 & H0 & [(Hs & _ & ->)|[(Hs & _ & _ & ->)|(Hs & _ & _ & ->)]]);
      rewrite H0 in H; inversion H; subst; rewrite Hs;
      repeat split; try done; try (by intros [|]); auto.
Qed.

Lemma rejected_request_touches_nothing_witness :
  snd (sensorDataRouter_get (request VNull (object [("limit", VStr "0")]))
                            (world_at 0 (log_of 3)))
  = world_at 0 (log_of 3).
Proof.
  apply (rejected_request_touches_nothing
           (request VNull (object [("limit", VStr "0")]))
           (world_at 0 (log_of 3)) sensorDataRouter_get
           (validation_failed [{| code := too_small; path := ["limit"] |}])).
  - unfold routes. in_list.
  - reflexivity.
  - reflexivity.
Defined.

(** X8. Before [connectDatabase] has set the handle, no route touches the
    storage: [POST /] and [GET /] answer 400 or 500, [GET /walls] answers
    500, each leaving the world as it was, and the health probe answers 503
    with the "not initialized" message, having read the clock once. *)
Theorem uninitialized_database req w :
  db w = false ->
  (exists res,
     sensorDataRouter_post req w = (inl res, w) /\
     ((exists errors, res = validation_failed errors) \/
      res = failure "Failed to save sensor data")) /\
  (exists res,
     sensorDataRouter_get req w = (inl res, w) /\
     ((exists errors, res = validation_failed errors) \/
      res = failure "Failed to query sensor data")) /\
  sensorDataRouter_get_walls req w
    = (inl (failure "Failed to get walls data"), w) /\
  healthRouter_get req w
    = (inl (unhealthy (clock w (clock_reads w)) not_initialized), tick w).
Proof.
  intros Hdb. rewrite post_run, get_run, walls_run, health_run, Hdb.
  split; [|split; [|done]].
  - destruct (parse sensorDataSchema (body req)); by eauto.
  - destruct (parse querySensorDataSchema (query req)); [|by eauto].
    rewrite get_handler_run, Hdb. by eauto.
Qed.

(** A process that has not connected yet. *)
Lemma uninitialized_database_witness :
  sensorDataRouter_get_walls (request VNull VNull)
    {| clock := fun n => Z.of_nat n; clock_reads := 0; uptime := of_Z 0;
       db := false; sensor_readings := []; server := fun _ => None;
       commands := 0; next_id := 0 |}
  = (inl (failure "Failed to get walls data"),
     {| clock := fun n => Z.of_nat n; clock_reads := 0; uptime := of_Z 0;
        db := false; sensor_readings := []; server := fun _ => None;
        commands := 0; next_id := 0 |}).
Proof.
  apply (uninitialized_database (request VNull VNull)
           {| clock := fun n => Z.of_nat n; clock_reads := 0; uptime := of_Z 0;
              db := false; sensor_readings := []; server := fun _ => None;
              commands := 0; next_id := 0 |}).
  reflexivity.
Defined.

(** A created reading is a typed one. *)
Lemma post_writes_typed req w res w' :
  sensorDataRouter_post req w = (inl res, w') -> statusCode res = 201 ->
  exists doc,
    sensor_readings w' = sensor_readings w ++ [doc] /\ typed_reading doc.
Proof.
  intros H Hs.
  destruct (post_created _ _ _ _ H Hs) as (m & data & _ & _ & _ & Hlog).
  destruct (post_stores_reading _ _ _ _ H Hs)
    as (doc & s & n & Hlast & Hw & Hne & Hd & Hi & Hn & Ht).
  rewrite Hlog, last_snoc in Hlast. inversion Hlast as [Hdoc].
  exists doc. split; [by rewrite Hlog, Hdoc|].
  repeat split; [by eauto|by eauto|by eauto|].
  rewrite <- Hdoc. simpl. unfold stamped. rewrite lookup_insert_eq. by eauto.
Qed.

(** X9. The log only ever holds typed readings: if every stored reading has
    a [wall_id] that is a string other than the empty one, a [device_count]
    that is an integer not below 0 and dates under both stamps, then the
    same holds after any request to any route. *)
Theorem typed_log_preserved req w r :
  r ∈ routes -> Forall typed_reading (sensor_readings w) ->
  Forall typed_reading (sensor_readings (snd (r req w))).
Proof.
  unfold routes. rewrite !elem_of_cons, elem_of_nil.
  intros [->|[->|[->|[->|[]]]]] Hall.
  - destruct (post_cases req w)
      as (res & w' & H & [[Hs Hw]|[(Hs & _ & Hw)|[(Hs & _ & _ & Hl & _)|(Hs & _ & _ & _ & _)]]]);
      rewrite H; simpl; try (by subst); try (by rewrite Hl).
    destruct (post_writes_typed _ _ _ _ H Hs) as (doc & -> & Hdoc).
    apply Forall_app. split; [done|]. by apply Forall_singleton.
  - destruct (get_cases req w)
      as (res & w' & -> & [[_ ->]|[(_ & _ & ->)|[(_ & _ & _ & ->)|(_ & _ & _ & ->)]]]);
      done.
  - destruct (walls_cases req w)
      as (res & w' & -> & [(_ & _ & ->)|[(_ & _ & _ & ->)|(_ & _ & _ & ->)]]);
      done.
  - destruct (health_cases req w)
      as (res & w' & -> & [(_ & _ & ->)|[(_ & _ & _ & ->)|(_ & _ & _ & ->)]]);
      done.
Qed.

Lemma typed_log_preserved_witness :
  Forall typed_reading
    (sensor_readings
       (snd (sensorDataRouter_post (request (VObj reading_min) VNull)
                                   (world_at 1000 [])))).
Proof.
  apply (typed_log_preserved (request (VObj reading_min) VNull)
           (world_at 1000 []) sensorDataRouter_post).
  - unfold routes. in_list.
  - apply Forall_nil_2.
Defined.

(* ===================================================================== *)
(** ** Reads                                                             *)
(* ===================================================================== *)

#[global] Instance newer_first_total : Total newer_first.
Proof. intros d1 d2. apply time_ge_total. Qed.

#[global] Instance newer_first_trans : Transitive newer_first.
Proof. intros d1 d2 d3. apply time_ge_trans. Qed.

Lemma StronglySorted_take {A} (R : relation A) n l :
  StronglySorted R l -> StronglySorted R (take n l).
Proof.
  intros H. revert n. induction H as [|x l H IH Hx]; intros [|n]; simpl;
    try constructor; [apply IH|by apply Forall_take].
Qed.

(** A read is sorted, newest first. *)
Lemma find_sorted f n c : StronglySorted newer_first (find f n c).
Proof.
  unfold find, cursor_limit.
  pose proof (StronglySorted_merge_sort newer_first
                (filter (fun d => matches f d) c)) as H.
  destruct (n =? 0); [done|by apply StronglySorted_take].
Qed.

(** X10. The rows of a successful [GET /] are stored documents, in
    descending order of [server_timestamp]: every row is at least as recent
    as every row after it. *)
Theorem read_is_sorted req w res w' :
  sensorDataRouter_get req w = (inl res, w') -> statusCode res = 200 ->
  exists data,
    res = found data /\
    StronglySorted newer_first data /\
    (forall d, d ∈ data -> d ∈ sensor_readings w) /\
    (forall i j d1 d2 t1 t2,
       (i < j)%nat -> data !! i = Some d1 -> data !! j = Some d2 ->
       timestamp_of d1 = Some t1 -> timestamp_of d2 = Some t2 -> t2 <= t1).
Proof.
  rewrite get_run. intros H Hs.
  destruct (parse querySensorDataSchema (query req)) as [data|errors];
    [|inversion H; subst; discriminate].
  rewrite get_handler_run in H.
  destruct (db w); [|inversion H; subst; discriminate].
  destruct (server w (commands w)); inversion H; subst; [discriminate|].
  eexists. split; [done|].
  pose proof (find_sorted (build_query (as_Query (VObj data)))
                (effective_limit (as_Query (VObj data))) (sensor_readings w))
    as Hsorted.
  split; [done|]. split; [by intros d [? _]%elem_of_find|].
  intros i j d1 d2 t1 t2 Hij H1 H2 Ht1 Ht2.
  set (l := find _ _ _) in *.
  rewrite <- (take_drop_middle l i d1 H1) in Hsorted, H2.
  apply StronglySorted_app_1_r, StronglySorted_cons in Hsorted as [Hall _].
  rewrite lookup_app_r in H2 by (rewrite length_take; lia).
  rewrite length_take in H2.
  apply lookup_lt_Some in H1 as Hi.
  replace (j - i `min` length l)%nat with (S (j - i - 1)) in H2 by lia.
  simpl in H2. apply list_elem_of_lookup_2 in H2.
  rewrite Forall_forall in Hall. specialize (Hall d2 H2).
  unfold newer_first in Hall. by rewrite Ht1, Ht2 in Hall.
Qed.

Lemma read_is_sorted_witness :
  exists data,
    found (reverse (log_of 3)) = found data /\ StronglySorted newer_first data.
Proof.
  destruct (read_is_sorted (request VNull (object [])) (world_at 0 (log_of 3))
              (found (reverse (log_of 3))) (sent (world_at 0 (log_of 3))))
    as (data & H1 & H2 & _).
  - reflexivity.
  - reflexivity.
  - by exists data.
Defined.

(** A valid query runs the handler on its normalized record. *)
Lemma get_valid_run req w m :
  query req = VObj m -> valid_query m ->
  sensorDataRouter_get req w = get_handler_on (normalized m) w.
Proof.
  intros Hq Hv. rewrite get_run, Hq.
  apply no_issue_query, (parse_inl_iff _ _ querySensorDataSchema_NoDup) in Hv
    as [data E].
  rewrite E. f_equal.
  destruct (validated_query_lookup _ _ E) as (Hs & _ & Hl & _).
  unfold as_Query, normalized. simpl.
  rewrite !Hs by in_list. by rewrite Hl.
Qed.

Lemma filter_all_match f (c : list Document) :
  (forall d, d ∈ c -> matches f d = true) ->
  filter (fun d => matches f d) c = c.
Proof.
  induction c as [|d c IH]; intros H; [done|].
  rewrite filter_cons. rewrite (H d) by left. simpl. f_equal.
  apply IH. intros d' Hd'. apply H. by right.
Qed.

(** X11. A query with none of the four parameters reads the whole log:
    no filter is built, and the answer is the 100 most recent readings, or
    all of them when the log holds fewer, newest first. *)
Theorem unfiltered_read req w m :
  query req = VObj m ->
  m !! "wall_id" = None -> m !! "start_time" = None ->
  m !! "end_time" = None -> m !! "limit" = None ->
  db w = true -> server w (commands w) = None ->
  build_query (normalized m)
    = {| f_wall_id := None; f_server_timestamp := None |} /\
  sensorDataRouter_get req w
    = (inl (found (take 100 (merge_sort newer_first (sensor_readings w)))),
       sent w) /\
  length (take 100 (merge_sort newer_first (sensor_readings w)))
    = (100 `min` length (sensor_readings w))%nat.
Proof.
  intros Hq H1 H2 H3 H4 Hdb Hsrv.
  assert (normalized m = {| q_wall_id := None; q_start_time := None;
                            q_end_time := None; q_limit := None |}) as Hn.
  { unfold normalized, limit_of. by rewrite H1, H2, H3, H4. }
  split; [by rewrite Hn|]. split.
  - rewrite (get_valid_run _ _ m Hq).
    + rewrite get_handler_run, Hdb, Hsrv, Hn. do 3 f_equal.
      unfold find. by rewrite filter_all_match.
    + unfold valid_query. rewrite H1, H2, H3, H4. by repeat split.
  - by rewrite length_take, (Permutation_length (merge_sort_Permutation _ _)).
Qed.

Lemma unfiltered_read_witness :
  sensorDataRouter_get (request VNull (object [("page", VStr "2")]))
                       (world_at 0 (log_of 3))
  = (inl (found (take 100 (merge_sort newer_first (log_of 3)))),
     sent (world_at 0 (log_of 3))).
Proof.
  apply (unfiltered_read (request VNull (object [("page", VStr "2")]))
           (world_at 0 (log_of 3)) (list_to_map [("page", VStr "2")]));
    reflexivity.
Defined.

(* ===================================================================== *)
(** ** Time ranges                                                       *)
(* ===================================================================== *)

(** A time parameter that passed validation is written into the filter as
    the instant it denotes. *)
Lemma time_param v :
  (forall x, v = Some x -> exists s, x = VStr s /\ isDatetime s = true) ->
  new_Date_of <$> present (as_string v) = instant_of v /\
  (is_Some v <-> is_Some (instant_of v)).
Proof.
  intros Hv. destruct v as [x|]; simpl.
  - destruct (Hv x eq_refl) as (s & -> & Hs). simpl.
    unfold isDatetime in Hs. apply bool_decide_eq_true in Hs as [T HT].
    change (parse_datetime s) with (Date_parse s) in HT.
    unfold instant_of. simpl. rewrite HT.
    rewrite (proj2 (present_Some (Some s) s)).
    + simpl. split; [by rewrite (new_Date_of_parsed _ _ HT)|].
      split; by eauto.
    + split; [done|]. by eapply Date_parse_nonempty.
  - split; [done|]. split; intros [? ?]; done.
Qed.

(** The filter built from a valid query admits the readings the query asks
    for, and no other. *)
Lemma selected_matches m d :
  valid_query m ->
  matches (build_query (normalized m)) d = true <-> selected m d.
Proof.
  intros (Hw & Hs & He & _).
  destruct (time_param _ Hs) as [Es _], (time_param _ He) as [Ee _].
  rewrite build_query_matches. unfold normalized, selected. simpl.
  rewrite <- Es, <- Ee. unfold of_wall, not_before, not_after.
  assert (forall o : option string,
            (forall s, present o = Some s -> wall_of d = Some s) <->
            match o with Some s => s <> "" -> wall_of d = Some s | None => True end)
    as ->.
  { intros [s|].
    - split.
      + intros H Hne. apply H. by apply present_Some.
      + intros H s' [[= <-] Hne]%present_Some. by apply H.
    - split; [done|]. intros _ s [? _]%present_Some. done. }
  destruct (present (as_string (m !! "start_time"))) as [s1|],
           (present (as_string (m !! "end_time"))) as [s2|]; simpl;
    naive_solver.
Qed.

(** C5.  For every query that passes validation, with the storage
    answering: a time parameter that is present denotes an instant, and the
    filter on [server_timestamp] carries [$gte] with the instant of
    [start_time] when that is present, [$lte] with the instant of [end_time]
    when that is present, both when both are, and is not built when neither
    is.  The filter admits a reading exactly when the reading is stamped at
    or after [start_time] and at or before [end_time] (and belongs to the
    wall asked for, if any): both bounds are inclusive.  The answer is a 200
    with exactly those readings of the log, newest first, cut at the limit;
    so each row lies within the bounds, and every reading within the bounds
    comes back whenever they are no more than the limit.  With both bounds
    the same instant [T] the readings asked for are those stamped [T]; with
    [start_time] after [end_time] no reading is, and the answer is a 200
    with an empty list, not an error. *)
Theorem time_range_filter req w m :
  query req = VObj m -> valid_query m ->
  db w = true -> server w (commands w) = None ->
  (is_Some (m !! "start_time") <-> is_Some (instant_of (m !! "start_time"))) /\
  (is_Some (m !! "end_time") <-> is_Some (instant_of (m !! "end_time"))) /\
  f_server_timestamp (build_query (normalized m)) =
    match instant_of (m !! "start_time"), instant_of (m !! "end_time") with
    | None, None => None
    | lo, hi => Some {| op_gte := lo; op_lte := hi |}
    end /\
  (forall d, matches (build_query (normalized m)) d = true <-> selected m d) /\
  (exists data,
     sensorDataRouter_get req w = (inl (found data), sent w) /\
     data = cursor_limit (effective_limit (normalized m))
              (merge_sort newer_first
                 (filter (selected m) (sensor_readings w))) /\
     (forall d, d ∈ data -> d ∈ sensor_readings w /\ selected m d) /\
     (Z.of_nat (length (filter (selected m) (sensor_readings w)))
        <= effective_limit (normalized m) ->
      forall d, d ∈ sensor_readings w -> selected m d -> d ∈ data) /\
     (forall T1 T2,
        instant_of (m !! "start_time") = Some T1 ->
        instant_of (m !! "end_time") = Some T2 -> T2 < T1 -> data = [])) /\
  (forall T,
     instant_of (m !! "start_time") = Some T ->
     instant_of (m !! "end_time") = Some T ->
     forall d, selected m d <->
               of_wall (m !! "wall_id") d /\ timestamp_of d = Some T).
Proof.
  intros Hq Hv Hdb Hsrv.
  pose proof Hv as (_ & Hs & He & _).
  destruct (time_param _ Hs) as [Es Hs'], (time_param _ He) as [Ee He'].
  assert (filter (fun d => matches (build_query (normalized m)) d)
                 (sensor_readings w)
          = filter (selected m) (sensor_readings w)) as Hfilter.
  { apply list_filter_iff. intros d.
    rewrite <- (selected_matches m d Hv). apply Is_true_true. }
  split; [done|]. split; [done|]. split; [|split; [|split]].
  - rewrite build_query_present. simpl. rewrite <- Es, <- Ee.
    by destruct (present (as_string (m !! "start_time"))),
                (present (as_string (m !! "end_time"))).
  - intros d. by apply selected_matches.
  - eexists. split; [|split; [reflexivity|split; [|split]]].
    + rewrite (get_valid_run _ _ m Hq Hv), get_handler_run, Hdb, Hsrv.
      unfold find. by rewrite Hfilter.
    + intros d Hd%elem_of_cursor_limit.
      rewrite merge_sort_Permutation in Hd.
      by apply list_elem_of_filter in Hd as [? ?].
    + intros Hn d Hin Hsel. rewrite <- Hfilter.
      apply (find_complete (build_query (normalized m))); [|done|].
      * right. rewrite Hfilter. lia.
      * by apply selected_matches.
    + intros T1 T2 H1 H2 Hlt.
      assert (forall c : list Document, filter (selected m) c = []) as ->.
      { intros c. induction c as [|d c IH]; [done|]. rewrite filter_cons.
        destruct (decide (selected m d)) as [(_ & Hlo & Hhi)|]; [|done].
        rewrite H1 in Hlo. rewrite H2 in Hhi.
        destruct Hlo as (t & Ht & ?), Hhi as (t' & Ht' & ?).
        simplify_eq. lia. }
      assert (merge_sort newer_first [] = []) as -> by reflexivity.
      unfold cursor_limit. destruct (_ =? 0); [done|apply take_nil].
  - intros T H1 H2 d. unfold selected. rewrite H1, H2. simpl. split.
    + intros (Hw & (t & Ht & ?) & (t' & Ht' & ?)). split; [done|].
      rewrite Ht in Ht'. injection Ht' as <-. rewrite Ht. f_equal. lia.
    + intros [Hw Ht]. split; [done|]. split; exists T; split; (done || lia).
Qed.

Lemma time_range_filter_witness :
  exists data,
    sensorDataRouter_get
      (request VNull (object [("start_time", VStr "1970-01-01T00:00:00.001Z")]))
      (world_at 0 (log_of 3))
    = (inl (found data), sent (world_at 0 (log_of 3))) /\
    data = cursor_limit 100
             (merge_sort newer_first
                (filter (selected {[ "start_time" := VStr "1970-01-01T00:00:00.001Z" ]})
                        (log_of 3))).
Proof.
  destruct (time_range_filter
              (request VNull (object [("start_time", VStr "1970-01-01T00:00:00.001Z")]))
              (world_at 0 (log_of 3))
              {[ "start_time" := VStr "1970-01-01T00:00:00.001Z" ]})
    as (_ & _ & _ & _ & (data & H1 & H2 & _) & _).
  - reflexivity.
  - unfold valid_query. rewrite lookup_singleton_eq.
    rewrite !lookup_singleton_ne by done.
    repeat split; try done. intros v [= <-]. by eexists.
  - reflexivity.
  - reflexivity.
  - exists data. split; [exact H1|exact H2].
Defined.

(** Ranges with one bound, on readings at T1 < T2 < T3. *)
Example read_from_T2 :
  exists d2 d1,
    sensorDataRouter_get
      (request VNull (object [("start_time", VStr "1970-01-01T00:00:00.001Z")]))
      (world_at 0 (log_of 3))
    = (inl (found [d2; d1]), sent (world_at 0 (log_of 3))) /\
    timestamp_of d2 = Some 2 /\ timestamp_of d1 = Some 1.
Proof. do 2 eexists. split; [reflexivity|]. split; reflexivity. Qed.

Example read_until_T2 :
  exists d1 d0,
    sensorDataRouter_get
      (request VNull (object [("end_time", VStr "1970-01-01T00:00:00.001Z")]))
      (world_at 0 (log_of 3))
    = (inl (found [d1; d0]), sent (world_at 0 (log_of 3))) /\
    timestamp_of d1 = Some 1 /\ timestamp_of d0 = Some 0.
Proof. do 2 eexists. split; [reflexivity|]. split; reflexivity. Qed.

(* ===================================================================== *)
(** ** A reading, written and read back                                  *)
(* ===================================================================== *)

Lemma wall_query_valid s :
  valid_query {[ "wall_id" := VStr s ]} /\
  normalized {[ "wall_id" := VStr s ]}
    = {| q_wall_id := Some s; q_start_time := None; q_end_time := None;
         q_limit := None |}.
Proof.
  split.
  - unfold valid_query. rewrite lookup_singleton_eq.
    rewrite !lookup_singleton_ne by done.
    repeat split; try done. intros v [= <-]. by exists s.
  - unfold normalized, limit_of. rewrite lookup_singleton_eq.
    by rewrite !lookup_singleton_ne by done.
Qed.

(** X13. Write, then read back.  After a reading for wall [s] was created,
    a [GET /?wall_id=s] that goes through returns the stored document,
    provided the wall has no more than 100 readings; the document carries
    every field of the schema that the body had, with the value it had, and
    every row returned is a reading of wall [s]. *)
Theorem stored_reading_is_found req w res w1 m s req' w2 res' :
  body req = VObj m -> m !! "wall_id" = Some (VStr s) ->
  sensorDataRouter_post req w = (inl res, w1) -> statusCode res = 201 ->
  query req' = VObj {[ "wall_id" := VStr s ]} ->
  sensorDataRouter_get req' w1 = (inl res', w2) -> statusCode res' = 200 ->
  (length (readings_of (Some s) (sensor_readings w1)) <= 100)%nat ->
  exists doc data,
    last (sensor_readings w1) = Some doc /\
    res' = found data /\ doc ∈ data /\
    (forall k, k ∈ sensorDataSchema.*1 -> fields doc !! k = m !! k) /\
    (forall d, d ∈ data -> wall_of d = Some s).
Proof.
  intros Hb Hm Hpost Hs Hq Hget Hs' Hcount.
  destruct (post_created _ _ _ _ Hpost Hs) as (m' & data & Hb' & Hp & _ & Hlog).
  rewrite Hb in Hb'. inversion Hb'; subst m'.
  destruct (post_stores_reading _ _ _ _ Hpost Hs)
    as (doc & s' & n & Hlast & Hw & Hne & _).
  assert (fields doc = stamped data w) as Hdoc.
  { rewrite Hlog, last_snoc in Hlast. by inversion Hlast. }
  assert (s' = s) as ->.
  { unfold wall_of in Hw. rewrite Hdoc in Hw. unfold stamped in Hw.
    rewrite !lookup_insert_ne in Hw by done.
    rewrite (validated_reading _ _ _ Hp), decide_True, Hm in Hw by in_list.
    by inversion Hw. }
  destruct (wall_query_valid s) as [Hv Hn].
  rewrite (get_valid_run _ _ _ Hq Hv), Hn, get_handler_run in Hget.
  destruct (db w1); [|inversion Hget; subst; discriminate].
  destruct (server w1 (commands w1)); inversion Hget; subst; [discriminate|].
  set (q := {| q_wall_id := Some s; q_start_time := None;
               q_end_time := None; q_limit := None |}) in *.
  assert (forall d, matches (build_query q) d = true <-> wall_of d = Some s)
    as Hiff.
  { intros d. rewrite build_query_matches. simpl.
    assert (present (Some s) = Some s) as -> by by apply present_Some.
    unfold present. simpl. split; [intros (H & _); by apply H|].
    intros H. repeat split; try done. by intros ? [= <-]. }
  exists doc, (find (build_query q) (effective_limit q) (sensor_readings w1)).
  split; [done|]. split; [done|]. split; [|split].
  - apply find_complete; [right| |by apply Hiff].
    + rewrite (list_filter_iff _ (fun d => wall_of d = Some s)).
      * change (effective_limit q) with 100. unfold readings_of in Hcount. lia.
      * intros d. rewrite <- Hiff. apply Is_true_true.
    + apply last_Some in Hlast as [l' ->]. apply elem_of_app. right. by left.
  - intros k Hk. rewrite Hdoc. unfold stamped.
    assert (k <> "created_at" /\ k <> "server_timestamp") as [? ?].
    { rewrite sensorDataSchema_keys in Hk.
      rewrite !elem_of_cons, elem_of_nil in Hk.
      repeat destruct Hk as [->|Hk]; try done. }
    rewrite !lookup_insert_ne by done.
    by rewrite (validated_reading _ _ _ Hp), decide_True.
  - intros d [_ Hd]%elem_of_find. by apply Hiff.
Qed.

Lemma stored_reading_is_found_witness :
  exists doc data,
    last (sensor_readings
            (snd (sensorDataRouter_post (request (VObj reading_min) VNull)
                                        (world_at 1000 []))))
      = Some doc /\
    fst (sensorDataRouter_get
           (request VNull (VObj {[ "wall_id" := VStr "B" ]}))
           (snd (sensorDataRouter_post (request (VObj reading_min) VNull)
                                       (world_at 1000 []))))
      = inl (found data) /\
    doc ∈ data.
Proof.
  destruct (stored_reading_is_found
              (request (VObj reading_min) VNull) (world_at 1000 [])
              (created 0)
              (snd (sensorDataRouter_post (request (VObj reading_min) VNull)
                                          (world_at 1000 [])))
              reading_min "B"
              (request VNull (VObj {[ "wall_id" := VStr "B" ]}))
              (snd (sensorDataRouter_get
                      (request VNull (VObj {[ "wall_id" := VStr "B" ]}))
                      (snd (sensorDataRouter_post
                              (request (VObj reading_min) VNull)
                              (world_at 1000 [])))))
              (found
                 (find (build_query
                          {| q_wall_id := Some "B"; q_start_time := None;
                             q_end_time := None; q_limit := None |}) 100
                       (sensor_readings
                          (snd (sensorDataRouter_post
                                  (request (VObj reading_min) VNull)
                                  (world_at 1000 [])))))))
    as (doc & data & H1 & H2 & H3 & _); try reflexivity.
  - vm_compute. lia.
  - exists doc, data. split; [exact H1|]. split; [|exact H3].
    rewrite <- H2. reflexivity.
Defined.

(** X14. Write, then summarize.  After a reading for wall [s] with
    [device_count] [n] was created, a [GET /walls] that goes through has a
    row for wall [s]; the [device_count] of that row is [n], the one just
    written, and its [latest_reading] is no earlier than the stamp just
    written. *)
Theorem stored_reading_in_summary req w res w1 m s n req' w2 res' :
  body req = VObj m ->
  m !! "wall_id" = Some (VStr s) -> m !! "device_count" = Some (VNum n) ->
  sensorDataRouter_post req w = (inl res, w1) -> statusCode res = 201 ->
  sensorDataRouter_get_walls req' w1 = (inl res', w2) -> statusCode res' = 200 ->
  exists walls x,
    res' = summary walls /\ x ∈ walls /\
    wall_id x = Some s /\ device_count x = Some (VNum n) /\
    time_ge (latest_reading x) (Some (clock w (clock_reads w))).
Proof.
  intros Hb Hm Hn Hpost Hs Hw Hs'.
  destruct (post_created _ _ _ _ Hpost Hs) as (m' & data & Hb' & Hp & _ & Hlog).
  rewrite Hb in Hb'. inversion Hb'; subst m'.
  rewrite walls_run in Hw.
  destruct (db w1); [|inversion Hw; subst; discriminate].
  destruct (server w1 (commands w1)); inversion Hw; subst; [discriminate|].
  set (doc := {| _id := next_id w; fields := stamped data w |}) in *.
  assert (wall_of doc = Some s) as Hwall.
  { unfold wall_of, doc, stamped. simpl. rewrite !lookup_insert_ne by done.
    by rewrite (validated_reading _ _ _ Hp), decide_True, Hm by in_list. }
  assert (fields doc !! "device_count" = Some (VNum n)) as Hdc.
  { unfold doc, stamped. simpl. rewrite !lookup_insert_ne by done.
    by rewrite (validated_reading _ _ _ Hp), decide_True, Hn by in_list. }
  assert (timestamp_of doc = Some (clock w (clock_reads w))) as Hts.
  { unfold timestamp_of, doc, stamped. simpl.
    rewrite lookup_insert_ne by done. by rewrite lookup_insert_eq. }
  exists (aggregate_walls (sensor_readings w1)),
         (project_stage (group_of (sensor_readings w1) (Some s))).
  split; [done|]. split; [|split; [done|split]].
  - apply elem_of_aggregate_walls. exists (Some s). split; [|done].
    rewrite Hlog, fmap_app, elem_of_app. right. simpl. rewrite Hwall. by left.
  - simpl. rewrite Hlog, readings_of_snoc, decide_True by done.
    by rewrite last_snoc.
  - unfold project_stage. cbn [latest_reading].
    rewrite Hlog, group_of_snoc, decide_True by done. cbn [g_latest_reading].
    rewrite Hts. apply time_ge_acc_max_r.
Qed.

Lemma stored_reading_in_summary_witness :
  exists walls x,
    summary [ {| wall_id := Some "B"; latest_reading := Some 1000;
                 device_count := Some (VNum (of_Z 7)) |} ] = summary walls /\
    x ∈ walls /\ wall_id x = Some "B" /\ device_count x = Some (VNum (of_Z 7)).
Proof.
  destruct (stored_reading_in_summary
              (request (VObj reading_min) VNull) (world_at 1000 [])
              (created 0)
              (snd (sensorDataRouter_post (request (VObj reading_min) VNull)
                                          (world_at 1000 [])))
              reading_min "B" (of_Z 7) (request VNull VNull)
              (sent (snd (sensorDataRouter_post
                            (request (VObj reading_min) VNull)
                            (world_at 1000 []))))
              (summary [ {| wall_id := Some "B"; latest_reading := Some 1000;
                            device_count := Some (VNum (of_Z 7)) |} ]))
    as (walls & x & H1 & H2 & H3 & H4 & _); try reflexivity.
  by exists walls, x.
Defined.

(* ===================================================================== *)
(** ** The connection and the start of the server                        *)
(* ===================================================================== *)

(** A [connectDatabase] that returns has set the handle. *)
Lemma connect_handle_set drv env st st' :
  Connection.connectDatabase drv env st = (inl tt, st') ->
  exists d, Connection.getDatabase st' = inl d.
Proof.
  unfold Connection.connectDatabase, Connection.getDatabase.
  destruct (Connection.new_MongoClient drv _); [done|].
  destruct (Connection.client_connect drv _); [done|].
  destruct (Connection.client_db drv _); [done|].
  intros [= <-]. by eexists.
Qed.

(** X15. A [connectDatabase] that returns has set the handle:
    [getDatabase] then yields the database named by [DB_NAME], and the
    client held is connected and was made for [MONGODB_URI]; a variable that is unset or
    empty gives way to its default, ["cragcrowd"] and
    ["mongodb://localhost:27017"]. *)
Theorem connect_then_getDatabase drv env st st' :
  Connection.connectDatabase drv env st = (inl tt, st') ->
  exists d,
    Connection.getDatabase st' = inl d /\
    Connection.client st'
      = Some {| Connection.url := Connection.via d;
                Connection.connected := true |} /\
    Connection.databaseName d
      = match env !! "DB_NAME" with
        | Some "" | None => "cragcrowd"
        | Some name => name
        end /\
    Connection.via d
      = match env !! "MONGODB_URI" with
        | Some "" | None => "mongodb://localhost:27017"
        | Some uri => uri
        end.
Proof.
  unfold Connection.connectDatabase, Connection.getDatabase.
  destruct (Connection.new_MongoClient drv _); [done|].
  destruct (Connection.client_connect drv _); [done|].
  destruct (Connection.client_db drv _); [done|].
  intros [= <-]. eexists. split; [done|]. simpl.
  repeat split; unfold Connection.env_or;
    destruct (env !! _) as [[|c s]|]; done.
Qed.

Lemma connect_then_getDatabase_witness :
  exists d,
    Connection.getDatabase
      (snd (Connection.connectDatabase driver_ok {[ "DB_NAME" := "" ]}
                                       Connection.initial)) = inl d /\
    Connection.databaseName d = "cragcrowd".
Proof.
  destruct (connect_then_getDatabase driver_ok {[ "DB_NAME" := "" ]}
              Connection.initial
              (snd (Connection.connectDatabase driver_ok {[ "DB_NAME" := "" ]}
                                               Connection.initial)))
    as (d & H1 & _ & H2 & _).
  - reflexivity.
  - exists d. split; [exact H1|exact H2].
Defined.

(** X16. A [connectDatabase] that fails throws what the driver threw and
    never sets the handle: [getDatabase] answers after it as it did before
    it, so that on a fresh module it still throws "not initialized", even
    though the client variable may by then hold the client that failed to
    connect. *)
Theorem connect_failure_keeps_handle drv env st e st' :
  Connection.connectDatabase drv env st = (inr e, st') ->
  Connection.db st' = Connection.db st /\
  Connection.getDatabase st' = Connection.getDatabase st /\
  (exists s, Connection.new_MongoClient drv s = Some e \/
             Connection.client_connect drv s = Some e \/
             Connection.client_db drv s = Some e) /\
  (Connection.client st' = Connection.client st \/
   exists c, Connection.client st' = Some c).
Proof.
  unfold Connection.connectDatabase, Connection.getDatabase.
  destruct (Connection.new_MongoClient drv _) eqn:E1.
  { intros [= <- <-]. by eauto 8. }
  destruct (Connection.client_connect drv _) eqn:E2.
  { intros [= <- <-]. simpl. by eauto 10. }
  destruct (Connection.client_db drv _) eqn:E3; [|done].
  intros [= <- <-]. simpl. by eauto 10.
Qed.

Lemma connect_failure_keeps_handle_witness :
  Connection.db (snd (Connection.connectDatabase driver_down ∅ Connection.initial))
    = None.
Proof.
  apply (connect_failure_keeps_handle driver_down ∅ Connection.initial
           connection_refused
           (snd (Connection.connectDatabase driver_down ∅ Connection.initial))).
  reflexivity.
Defined.

(** X17. [closeDatabase] does nothing when no client was ever made, and in
    every case leaves the handle where it is: after it, [getDatabase]
    answers as before, so that a handle obtained once stays available after
    the client behind it was closed. *)
Theorem close_keeps_handle drv st :
  (Connection.client st = None ->
   Connection.closeDatabase drv st = (inl tt, st)) /\
  Connection.getDatabase (snd (Connection.closeDatabase drv st))
    = Connection.getDatabase st /\
  (forall c, Connection.client st = Some c ->
             Connection.client_close drv (Connection.url c) = None ->
             exists c',
               Connection.client (snd (Connection.closeDatabase drv st)) = Some c' /\
               Connection.connected c' = false /\
               Connection.url c' = Connection.url c).
Proof.
  unfold Connection.closeDatabase, Connection.getDatabase.
  split; [by intros ->|]. split.
  - destruct (Connection.client st) as [c|]; [|done].
    by destruct (Connection.client_close drv _).
  - intros c -> ->. simpl. by eauto.
Qed.

(** X18. The server listens only once the database is connected: when
    [startServer] leaves the process listening, the handle is set and
    [getDatabase] yields it, the port being [PORT] or 3000 when that is
    unset or empty; and whenever connecting or listening throws, the process
    exits with code 1. *)
Theorem server_listens_only_when_connected drv listen env st :
  match startServer drv listen env st with
  | (Listening port, st') =>
      (exists d, Connection.getDatabase st' = inl d) /\
      Connection.connectDatabase drv env st = (inl tt, st') /\
      listen port = None /\
      port = match env !! "PORT" with
             | Some "" | None => VNum (of_Z 3000)
             | Some p => VStr p
             end
  | (Exited code, st') =>
      code = 1 /\
      ((exists e, Connection.connectDatabase drv env st = (inr e, st')) \/
       is_Some (listen (PORT env)))
  end.
Proof.
  unfold startServer.
  destruct (Connection.connectDatabase drv env st) as [[[]|e] st'] eqn:E.
  - destruct (listen (PORT env)) eqn:El.
    + split; [done|]. right. by eauto.
    + destruct (connect_handle_set _ _ _ _ E) as [d Hd].
      split; [by eauto|]. split; [done|]. split; [done|].
      unfold PORT. by destruct (env !! "PORT") as [[|c s]|].
  - split; [done|]. left. by eauto.
Qed.

(* ===================================================================== *)
(** ** The middleware, for any object schema                             *)
(* ===================================================================== *)

(** The validated object has keys of the shape only. *)
Lemma parse_inl_keys shape data out k :
  parse shape data = inl out -> is_Some (out !! k) -> k ∈ shape.*1.
Proof.
  intros H [v Hv]. destruct (parse_inl_object _ _ _ H) as [m ->].
  unfold parse in H.
  destruct (flat_map _ _); [|discriminate].
  destruct (mergeObjectSync _) as [o|] eqn:Em; [|discriminate].
  inversion H; subst o.
  destruct (merge_lookup_Some _ _ _ _ Em Hv) as (kv & Hkv & <- & _).
  rewrite <- (object_pairs_keys shape m). apply list_elem_of_fmap.
  by exists kv.
Qed.

(** X19. For every object schema in Zod's default mode, which strips
    unknown keys, and every target: when [validateRequest] hands the request
    on, the target has been replaced by the validated object, which has no
    key outside the schema, and the other parts of the request are as they
    were. *)
Theorem validated_target_has_schema_keys_only schema target req req' :
  validateRequest schema target req = inr req' ->
  exists data,
    parse schema (req_get req target) = inl data /\
    req_get req' target = VObj data /\
    (forall k, is_Some (data !! k) -> k ∈ schema.*1) /\
    (forall t, t <> target -> req_get req' t = req_get req t).
Proof.
  unfold validateRequest.
  destruct (parse schema (req_get req target)) as [data|errors] eqn:E;
    [|done].
  intros [= <-]. exists data. split; [done|]. split; [by destruct target|].
  split; [intros k; by eapply parse_inl_keys|].
  intros t Ht. by destruct target, t.
Qed.

Lemma validated_target_has_schema_keys_only_witness :
  exists data,
    parse querySensorDataSchema (object [("wall_id", VStr "A"); ("page", VStr "2")])
      = inl data /\
    req_get (request VNull (VObj {[ "wall_id" := VStr "A" ]})) target_query
      = VObj data.
Proof.
  destruct (validated_target_has_schema_keys_only querySensorDataSchema
              target_query
              (request VNull (object [("wall_id", VStr "A"); ("page", VStr "2")]))
              (request VNull (VObj {[ "wall_id" := VStr "A" ]})))
    as (data & H1 & H2 & _).
  - reflexivity.
  - exists data. split; [exact H1|exact H2].
Defined.
